(** * Healpy-Array-Simulation: the array-pattern mathematics of
      [array_functions.py], embedded over the real numbers.

    NumPy's [float64] and [complex128] values are idealised: a float is a
    real number of [Stdlib.Reals], a complex value is a pair of reals.
    Exceptions raised by NumPy or Python are explicit ([result]), and a
    floating division whose divisor is zero, which NumPy answers with
    [inf] or [nan], is the separate value [NonFinite]. *)

From Stdlib Require Import Reals List ZArith Lia Lra Psatz Bool.
Import ListNotations.
Local Open Scope R_scope.

(** ** Exceptions *)

Inductive exn : Type :=
| IndexError
| ValueError.

Inductive result (A : Type) : Type :=
| Ok (a : A)
| Raise (e : exn).

Arguments Ok {A} a.
Arguments Raise {A} e.

Definition bind {A B : Type} (r : result A) (k : A -> result B) : result B :=
  match r with
  | Ok a => k a
  | Raise e => Raise e
  end.

Notation "x <- r ;; k" := (bind r (fun x => k))
  (at level 61, r at next level, right associativity).

(** ** Complex values *)

Definition C : Type := (R * R)%type.

Definition RtoC (x : R) : C := (x, 0).
Definition C0 : C := (0, 0).
Definition C1 : C := (1, 0).

Definition Cadd (z w : C) : C := (fst z + fst w, snd z + snd w).
Definition Cmul (z w : C) : C :=
  (fst z * fst w - snd z * snd w, fst z * snd w + snd z * fst w).
Definition Cmod (z : C) : R := sqrt (fst z * fst z + snd z * snd z).
Definition Cexp (z : C) : C :=
  (exp (fst z) * cos (snd z), exp (fst z) * sin (snd z)).

(** The literal [2j]. *)
Definition two_j : C := (0, 2).

(** ** Floating division *)

Inductive np_value (A : Type) : Type :=
| Finite (a : A)
| NonFinite.

Arguments Finite {A} a.
Arguments NonFinite {A}.

Definition Ceq_dec (z w : C) : {z = w} + {z <> w}.
Proof.
  destruct z as [a b], w as [c d].
  destruct (Req_dec_T a c) as [Hac | Hac].
  - destruct (Req_dec_T b d) as [Hbd | Hbd].
    + left. now subst.
    + right. intros H. apply Hbd. now inversion H.
  - right. intros H. apply Hac. now inversion H.
Defined.

Definition Cinv (z : C) : C :=
  (fst z / (fst z * fst z + snd z * snd z),
   - snd z / (fst z * fst z + snd z * snd z)).

(** [x / y] on floats: a zero divisor gives [inf] or [nan]. *)
Definition np_divide (x y : R) : np_value R :=
  if Req_dec_T y 0 then NonFinite else Finite (x / y).

Definition np_cdivide (x y : C) : np_value C :=
  if Ceq_dec y C0 then NonFinite else Finite (Cmul x (Cinv y)).

(** ** NumPy primitives on one- and two-dimensional arrays *)

Section Arrays.
Context {A : Type}.

Fixpoint map2 {B D : Type} (f : A -> B -> D) (u : list A) (v : list B)
  : list D :=
  match u, v with
  | a :: u', b :: v' => f a b :: map2 f u' v'
  | _, _ => []
  end.

(** [np.tile(v, reps)] for a vector: an empty vector is returned as it
    is, otherwise a negative count is refused. *)
Definition np_tile (v : list A) (reps : Z) : result (list A) :=
  match v with
  | [] => Ok []
  | _ => if (reps <? 0)%Z then Raise ValueError
         else Ok (concat (repeat v (Z.to_nat reps)))
  end.

(** [np.repeat(v, n)] for a vector and a scalar count: an empty vector is
    returned as it is, otherwise a negative count is refused. *)
Definition np_repeat (v : list A) (n : Z) : result (list A) :=
  match v with
  | [] => Ok []
  | _ => if (n <? 0)%Z then Raise ValueError
         else Ok (flat_map (fun a => repeat a (Z.to_nat n)) v)
  end.

(** [v.reshape((nrows, ncols))] of a flat vector. *)
Definition np_reshape (nrows ncols : nat) (v : list A)
  : result (list (list A)) :=
  if (length v =? nrows * ncols)%nat
  then Ok (map (fun r => firstn ncols (skipn (r * ncols) v)) (seq 0 nrows))
  else Raise ValueError.

(** [np.stack((u, v))]: a two-row matrix, both rows of one length. *)
Definition np_stack (u v : list A) : result (list A * list A) :=
  if (length u =? length v)%nat then Ok (u, v) else Raise ValueError.

(** [np.stack((u, v), 1)]: a two-column matrix, one row per index. *)
Definition np_stack1 (u v : list A) : result (list (A * A)) :=
  if (length u =? length v)%nat then Ok (combine u v) else Raise ValueError.
End Arrays.

(** [np.arange(n)] as floats: empty when [n <= 0]. *)
Definition np_arange (n : Z) : list R :=
  map INR (seq 0 (Z.to_nat n)).

(** Broadcasting of two vectors under a binary operation. *)
Definition broadcast (f : R -> R -> R) (u v : list R) : result (list R) :=
  if (length u =? length v)%nat then Ok (map2 f u v)
  else if (length v =? 1)%nat then Ok (map (fun x => f x (nth 0 v 0)) u)
  else if (length u =? 1)%nat then Ok (map (fun y => f (nth 0 u 0) y) v)
  else Raise ValueError.

(** [S - S0] on two-row matrices. *)
Definition rows_sub (S S0 : list R * list R) : result (list R * list R) :=
  r0 <- broadcast Rminus (fst S) (fst S0) ;;
  r1 <- broadcast Rminus (snd S) (snd S0) ;;
  Ok (r0, r1).

(** [2j*np.pi*positions]: Python groups [*] and [@] from the left, so the
    positions are scaled before the matrix product. *)
Definition scaled (positions : list (R * R)) : list (C * C) :=
  map (fun p => (Cmul (Cmul two_j (RtoC PI)) (RtoC (fst p)),
                 Cmul (Cmul two_j (RtoC PI)) (RtoC (snd p)))) positions.

(** [A @ S] for a (J,2) complex matrix and a (2,P) real matrix. *)
Definition matmul (M : list (C * C)) (S : list R * list R) : list (list C) :=
  map (fun a =>
         map (fun s => Cadd (Cmul (fst a) (RtoC (fst s)))
                            (Cmul (snd a) (RtoC (snd s))))
             (combine (fst S) (snd S)))
      M.

(** [np.sum(M, 0)] of a matrix with [P] columns, given by rows. *)
Definition sum_axis0 (P : nat) (M : list (list C)) : list C :=
  fold_right (map2 Cadd) (repeat C0 P) M.

(** The line shared by the four array-factor functions:
    [np.sum(np.exp(2j*np.pi*positions@(S-S0)),0)]. *)
Definition phase_sum (positions : list (R * R)) (S S0 : list R * list R)
  : result (list C) :=
  D <- rows_sub S S0 ;;
  Ok (sum_axis0 (length (fst D))
        (map (map Cexp) (matmul (scaled positions) D))).

(** ** array_functions.py *)

Definition array_manifold (l m : list R) (positions : list (R * R))
  : result (list (list C)) :=
  S <- np_stack l m ;;
  Ok (map (map Cexp) (matmul (scaled positions) S)).

Definition array_factor_lm (l m : list R) (l0 m0 : R)
  (positions : list (R * R)) : result (list C) :=
  S <- np_stack l m ;;
  S0 <- np_stack [l0] [m0] ;;
  phase_sum positions S S0.

(** Modelled from the spec: [hp.ang2vec] belongs to the healpy library,
    which is not part of the repository.  Section 4.3 calls it the standard
    spherical-to-Cartesian mapping, l = sin(theta)*cos(phi) and
    m = sin(theta)*sin(phi); the third component is cos(theta).  One row
    per direction, for angle vectors of one length. *)
Definition ang2vec (theta phi : list R) : result (list (R * R * R)) :=
  if (length theta =? length phi)%nat
  then Ok (map2 (fun t p => (sin t * cos p, sin t * sin p, cos t)) theta phi)
  else Raise ValueError.

(** [V[:,:2].T]: the first two columns, as a two-row matrix. *)
Definition first_two_T (V : list (R * R * R)) : list R * list R :=
  (map (fun v => fst (fst v)) V, map (fun v => snd (fst v)) V).

Definition array_factor_tp (theta phi : list R) (theta0 phi0 : R)
  (positions : list (R * R)) : result (list C) :=
  V <- ang2vec theta phi ;;
  V0 <- ang2vec [theta0] [phi0] ;;
  phase_sum positions (first_two_T V) (first_two_T V0).

Section Healpix.
(** [hp.pix2vec] for one pixel of a resolution [nside], where [nside] and
    the pixel index are valid and healpy returns a vector: the
    pixelization is healpy's, and the array-factor functions use nothing
    of it but the vector it returns. *)
Variable pix2vec : Z -> Z -> R * R * R.

(** [hp.pix2vec(nside, pixels)] on an index array: three coordinate
    vectors. *)
Definition hp_pix2vec (nside : Z) (pixels : list Z)
  : list R * list R * list R :=
  (map (fun p => fst (fst (pix2vec nside p))) pixels,
   map (fun p => snd (fst (pix2vec nside p))) pixels,
   map (fun p => snd (pix2vec nside p)) pixels).

Definition array_factor_hpmatrix (nside : Z)
  (source_pixels scan_pixels : list Z) (positions : list (R * R))
  : result (list (list C)) :=
  let '(sx, sy, _) := hp_pix2vec nside source_pixels in
  S <- np_stack sx sy ;;
  let '(s0x, s0y, _) := hp_pix2vec nside scan_pixels in
  S0 <- np_stack s0x s0y ;;
  let nsource := length source_pixels in
  let nscan := length scan_pixels in
  Sx <- np_tile (fst S) (Z.of_nat nscan) ;;
  Sy <- np_tile (snd S) (Z.of_nat nscan) ;;
  S0x <- np_repeat (fst S0) (Z.of_nat nsource) ;;
  S0y <- np_repeat (snd S0) (Z.of_nat nsource) ;;
  A <- phase_sum positions (Sx, Sy) (S0x, S0y) ;;
  np_reshape nscan nsource A.

Definition array_factor_hp (nside : Z) (source_pixels : list Z)
  (scan_pixel : Z) (positions : list (R * R)) : result (list C) :=
  let '(sx, sy, _) := hp_pix2vec nside source_pixels in
  S <- np_stack sx sy ;;
  let '(s0x, s0y, _) := hp_pix2vec nside [scan_pixel] in
  S0 <- np_stack s0x s0y ;;
  phase_sum positions S S0.
End Healpix.

(** *** Geometry *)

Definition upa_positions (Nx Ny : Z) (dx dy : R) : result (list (R * R)) :=
  tx <- np_tile (np_arange Nx) Ny ;;
  let px := map (fun i => i * dx) tx in
  ty <- np_repeat (np_arange Ny) Nx ;;
  let py := map (fun j => j * dy) ty in
  np_stack1 px py.

(** [np.round(x, decimals=0).astype(int)]: to the nearest integer, a tie
    to the even one. *)
Definition np_round (x : R) : Z :=
  let f := Int_part x in
  let r := x - IZR f in
  if Rlt_dec r (1 / 2) then f
  else if Rlt_dec (1 / 2) r then (f + 1)%Z
  else if Z.even f then f else (f + 1)%Z.

Definition hex_positions (Nx : Z) (dx : R) : result (list (R * R)) :=
  let dy := dx * sqrt 3 in
  let Ny := np_round (IZR Nx / sqrt 3) in
  p1 <- upa_positions Nx Ny dx dy ;;
  p2 <- upa_positions (Nx - 1) (Ny - 1) dx dy ;;
  let p2 := map (fun p => (fst p + dx / 2, snd p + dy / 2)) p2 in
  Ok (p1 ++ p2).

(** *** Directivity *)

(** A matrix given by its entries. *)
Definition mk_matrix {A : Type} (n m : nat) (f : nat -> nat -> A)
  : list (list A) :=
  map (fun r => map (fun c => f r c) (seq 0 m)) (seq 0 n).

(** [np.diag(v, k)]: the square matrix of order [len(v) + |k|] with [v] on
    its [k]-th diagonal. *)
Definition np_diag (v : list R) (k : Z) : list (list R) :=
  let n := (length v + Z.abs_nat k)%nat in
  mk_matrix n n (fun r c =>
    if (Z.of_nat c - Z.of_nat r =? k)%Z then nth (Nat.min r c) v 0 else 0).

(** Entry-wise sum of two matrices of one shape. *)
Definition madd (M M' : list (list R)) : list (list R) :=
  map2 (map2 Rplus) M M'.

(** [np.sinc]: sin(pi*x)/(pi*x), and 1 at [x = 0] (NumPy evaluates the
    quotient at a tiny non-zero argument there, which is 1.0 in floats). *)
Definition np_sinc (x : R) : R :=
  if Req_dec_T x 0 then 1 else sin (PI * x) / (PI * x).

(** [np.kron(a, a)] of a vector with itself. *)
Definition np_kron (a b : list C) : list C :=
  flat_map (fun x => map (Cmul x) b) a.

Definition Rsum (v : list R) : R := fold_right Rplus 0 v.
Definition Csum (v : list C) : C := fold_right Cadd C0 v.

(** One pass of the loop [for i in range(1,N)]. *)
Definition diff_step (N : nat) (diff_matrix : list (list R)) (i : nat)
  : list (list R) :=
  let diag := map (fun o => o * INR i) (repeat 1 (N - i)) in
  madd (madd diff_matrix (np_diag (map Ropp diag) (Z.of_nat i)))
       (np_diag diag (- Z.of_nat i)).

(** The weights are complex; a real weight [x] is [RtoC x]. *)
Definition linear_directivity (a : list C) (d : R) : result (np_value C) :=
  let N := length a in
  let D_num := (Rsum (map Cmod a)) ^ 2 in
  coeff_products <- np_reshape N N (np_kron a a) ;;
  let diff_matrix :=
    fold_left (diff_step N) (seq 1 (N - 1)) (mk_matrix N N (fun _ _ => 0)) in
  let sinc_args := map (map (fun x => 2 * d * x)) diff_matrix in
  let D_den :=
    Csum (concat (map2 (map2 (fun c s => Cmul c (RtoC s)))
                       coeff_products (map (map np_sinc) sinc_args))) in
  Ok (np_cdivide (RtoC D_num) D_den).

(** [v[i]] for an index [i >= 0]. *)
Definition getitem (v : list R) (i : nat) : result R :=
  match nth_error v i with
  | Some x => Ok x
  | None => Raise IndexError
  end.

(** Sequencing of fallible steps over the rows of a matrix. *)
Fixpoint mapM {A B : Type} (f : A -> result B) (l : list A)
  : result (list B) :=
  match l with
  | [] => Ok []
  | a :: l' => b <- f a ;; bs <- mapM f l' ;; Ok (b :: bs)
  end.

(** The power pattern is given by its rows, one per phi sample; a pattern
    without rows stands for the shape (0, len(theta)). *)
Definition radiated_power (PowerPattern : list (list R)) (theta phi : list R)
  : result R :=
  t1 <- getitem theta 1 ;;
  t0 <- getitem theta 0 ;;
  let dt := t1 - t0 in
  p1 <- getitem phi 1 ;;
  p0 <- getitem phi 0 ;;
  let dp := p1 - p0 in
  W <- mapM (fun row => broadcast Rmult row (map sin theta)) PowerPattern ;;
  Ok (Rsum (map (fun s => s * dt) (map Rsum W)) * dp).

(** [np.max] of a matrix: refused on an empty one. *)
Definition np_max (M : list (list R)) : result R :=
  match concat M with
  | [] => Raise ValueError
  | x :: xs => Ok (fold_left Rmax xs x)
  end.

Definition numerical_directivity (PowerPattern : list (list R))
  (theta phi : list R) : result (np_value R) :=
  m <- np_max PowerPattern ;;
  let D_num := 4 * PI * m in
  D_den <- radiated_power PowerPattern theta phi ;;
  Ok (np_divide D_num D_den).

(** ** map_functions.py *)

(** Python's exceptions beyond those NumPy raises on arrays. *)
Inductive py_exn : Type :=
| NumPyError (e : exn)
| ZeroDivisionError.

Inductive outcome (A : Type) : Type :=
| Returns (a : A)
| Fails (e : py_exn).

Arguments Returns {A} a.
Arguments Fails {A} e.

Definition lift {A : Type} (r : result A) : outcome A :=
  match r with
  | Ok a => Returns a
  | Raise e => Fails (NumPyError e)
  end.

Definition obind {A B : Type} (o : outcome A) (k : A -> outcome B)
  : outcome B :=
  match o with
  | Returns a => k a
  | Fails e => Fails e
  end.

(** The least integer not below [x]. *)
Definition ceilZ (x : R) : Z := (- Int_part (- x))%Z.

(** [np.arange(start, stop, step)] on floats: [ceil((stop-start)/step)]
    values [start + i*step], none when that count is not positive; a zero
    step is a division by zero.  The count is the ceiling of the real
    quotient; NumPy takes it of the rounded float64 quotient. *)
Definition np_arange_step (start stop step : R) : outcome (list R) :=
  if Req_dec_T step 0 then Fails ZeroDivisionError
  else Returns (map (fun i => start + INR i * step)
                    (seq 0 (Z.to_nat (ceilZ ((stop - start) / step))))).

(** [np.radians]. *)
Definition np_radians (v : list R) : list R :=
  map (fun x => x * (PI / 180)) v.

(** [v.reshape((nrows, -1))]: the column count is inferred, and must
    exist. *)
Definition np_reshape_rows {A : Type} (nrows : nat) (v : list A)
  : result (list (list A)) :=
  if (nrows =? 0)%nat then Raise ValueError
  else if (length v mod nrows =? 0)%nat
       then np_reshape nrows (length v / nrows) v
       else Raise ValueError.

(** [table[:,k]] of a two-dimensional table given by its rows. *)
Definition column (k : nat) (table : list (list R)) : result (list R) :=
  mapM (fun row => getitem row k) table.

(** [table[:,k]] of what [np.loadtxt] returns for the data lines of a
    file: a two-dimensional table for two lines or more, one row per line,
    and a one-dimensional array, which has no second axis, for fewer. *)
Definition loadtxt_column (k : nat) (table : list (list R))
  : result (list R) :=
  if (length table <=? 1)%nat then Raise IndexError else column k table.

(** [import_pattern], from the data lines that [np.loadtxt] reads, all of
    one length. *)
Definition import_pattern (table : list (list R)) (delta : R)
  : outcome (list (list R) * list R * list R) :=
  obind (np_arange_step 0 (180 + delta) delta) (fun t =>
  let theta := np_radians t in
  obind (np_arange_step 0 360 delta) (fun p =>
  let phi := np_radians p in
  let nphi := length phi in
  lift (c <- loadtxt_column 2 table ;;
        Eabs <- np_reshape_rows nphi c ;;
        Ok (Eabs, theta, phi)))).

(** ** Auxiliary operations of the further properties *)

(** Complex conjugate. *)
Definition Cconj (z : C) : C := (fst z, - snd z).

(** The action of a function on a returned value. *)
Definition fmap {A B : Type} (f : A -> B) (r : result A) : result B :=
  match r with
  | Ok a => Ok (f a)
  | Raise e => Raise e
  end.

(** * Reference formulas

    The quantities of the specification that the theorems compare the
    code with. *)

(** [exp(i t)]. *)
Definition Cis (t : R) : C := (cos t, sin t).

(** The coherent sum of section 4.3 at one source-minus-steer difference
    [(dl, dm)]: one unit phase term per element. *)
Definition coherent_sum (positions : list (R * R)) (dl dm : R) : C :=
  Csum (map (fun p => Cis (2 * PI * (fst p * dl + snd p * dm))) positions).

Section SteeredRows.
Variable pix2vec : Z -> Z -> R * R * R.

(** Direction cosines of a pixel: the first two components of its vector. *)
Definition pixel_l (nside p : Z) : R := fst (fst (pix2vec nside p)).
Definition pixel_m (nside p : Z) : R := snd (fst (pix2vec nside p)).

(** One row of array factors: every source pixel against one scan pixel. *)
Definition steered_row (nside : Z) (positions : list (R * R))
  (source_pixels : list Z) (scan_pixel : Z) : list C :=
  map (fun p =>
         coherent_sum positions
           (pixel_l nside p - pixel_l nside scan_pixel)
           (pixel_m nside p - pixel_m nside scan_pixel))
      source_pixels.
End SteeredRows.

(** The rectangular lattice of section 4.1: [position(i,j) = (i*dx, j*dy)],
    x varying fastest. *)
Definition rectangular_lattice (nx ny : nat) (dx dy : R) : list (R * R) :=
  flat_map (fun j => map (fun i => (INR i * dx, INR j * dy)) (seq 0 nx))
           (seq 0 ny).

(** The rectangle rule of section 4.4:
    [P_rad = (sum_phi [(sum_theta PowerPattern*sin(theta)) * dtheta])
             * dphi]. *)
Definition rectangle_rule (PowerPattern : list (list R)) (theta : list R)
  (dtheta dphi : R) : R :=
  Rsum (map (fun row =>
               Rsum (map2 (fun p t => p * sin t) row theta) * dtheta)
            PowerPattern)
  * dphi.

(** The denominator of section 4.4:
    [sum_{i,j} w_i*w_j*sinc(2d(i-j))]. *)
Definition coupling_sum (w : list C) (d : R) : C :=
  Csum (map (fun i =>
               Csum (map (fun j =>
                            Cmul (Cmul (nth i w C0) (nth j w C0))
                                 (RtoC (np_sinc (2 * d * (INR i - INR j)))))
                         (seq 0 (length w))))
            (seq 0 (length w))).


(** * Properties *)

(** ** Lists and the exception monad *)

Lemma map2_length {A B D : Type} (f : A -> B -> D) (u : list A) (v : list B) :
  length (map2 f u v) = Nat.min (length u) (length v).
Proof.
  revert v. induction u as [| a u IH]; intros [| b v]; simpl; auto.
Qed.

Lemma map2_combine {A B D : Type} (f : A -> B -> D) (u : list A) (v : list B) :
  map2 f u v = map (fun ab => f (fst ab) (snd ab)) (combine u v).
Proof.
  revert v. induction u as [| a u IH]; intros [| b v]; simpl; auto.
  now rewrite IH.
Qed.

Lemma map2_map_map {A B D E : Type} (f : B -> D -> E) (g : A -> B)
  (h : A -> D) (l : list A) :
  map2 f (map g l) (map h l) = map (fun x => f (g x) (h x)) l.
Proof.
  induction l as [| a l IH]; simpl; auto. now rewrite IH.
Qed.

Lemma map2_app {A B D : Type} (f : A -> B -> D) (u u' : list A)
  (v v' : list B) :
  length u = length v ->
  map2 f (u ++ u') (v ++ v') = map2 f u v ++ map2 f u' v'.
Proof.
  revert v. induction u as [| a u IH]; intros [| b v] H; simpl in *;
    try discriminate; auto.
  f_equal. apply IH. now injection H.
Qed.

Lemma map2_repeat_r {A B D : Type} (f : A -> B -> D) (u : list A) (b : B) :
  map2 f u (repeat b (length u)) = map (fun a => f a b) u.
Proof.
  induction u as [| a u IH]; simpl; auto. now rewrite IH.
Qed.

Lemma combine_app {A B : Type} (u u' : list A) (v v' : list B) :
  length u = length v ->
  combine (u ++ u') (v ++ v') = combine u v ++ combine u' v'.
Proof.
  revert v. induction u as [| a u IH]; intros [| b v] H; simpl in *;
    try discriminate; auto.
  f_equal. apply IH. now injection H.
Qed.

Lemma combine_map_map {A B D : Type} (g : A -> B) (h : A -> D) (l : list A) :
  combine (map g l) (map h l) = map (fun x => (g x, h x)) l.
Proof.
  induction l as [| a l IH]; simpl; auto. now rewrite IH.
Qed.

Lemma broadcast_scalar_r (f : R -> R -> R) (u : list R) (s : R) :
  broadcast f u [s] = Ok (map (fun x => f x s) u).
Proof.
  unfold broadcast. simpl.
  destruct u as [| a [| b u]]; simpl; auto.
Qed.

Lemma broadcast_same (f : R -> R -> R) (u v : list R) :
  length u = length v -> broadcast f u v = Ok (map2 f u v).
Proof.
  intros H. unfold broadcast. rewrite H, Nat.eqb_refl. reflexivity.
Qed.

Lemma np_stack_ok {A : Type} (u v : list A) :
  length u = length v -> np_stack u v = Ok (u, v).
Proof.
  intros H. unfold np_stack. now rewrite H, Nat.eqb_refl.
Qed.

(** ** Complex arithmetic *)

Lemma Cmod_Cis (t : R) : Cmod (Cis t) = 1.
Proof.
  unfold Cmod, Cis. simpl.
  replace (cos t * cos t + sin t * sin t) with 1.
  - apply sqrt_1.
  - pose proof (sin2_cos2 t) as H. unfold Rsqr in H. lra.
Qed.

Lemma Cmod_C0 : Cmod C0 = 0.
Proof.
  unfold Cmod, C0. simpl.
  replace (0 * 0 + 0 * 0) with 0 by ring. apply sqrt_0.
Qed.

Lemma Cmod_nonneg (z : C) : 0 <= Cmod z.
Proof. apply sqrt_pos. Qed.

Lemma Cmod_triangle (z w : C) : Cmod (Cadd z w) <= Cmod z + Cmod w.
Proof.
  destruct z as [a b], w as [c d]. unfold Cmod, Cadd. simpl.
  set (p := a * a + b * b). set (q := c * c + d * d).
  assert (Hp : 0 <= p) by (unfold p; nra).
  assert (Hq : 0 <= q) by (unfold q; nra).
  assert (Hcs : a * c + b * d <= sqrt p * sqrt q).
  { rewrite <- sqrt_mult by assumption.
    destruct (Rle_dec (a * c + b * d) 0) as [Hn | Hn].
    - apply Rle_trans with 0; [assumption | apply sqrt_pos].
    - apply Rnot_le_lt in Hn.
      apply Rle_trans with (sqrt ((a * c + b * d) * (a * c + b * d))).
      + rewrite sqrt_square by lra. lra.
      + apply sqrt_le_1_alt. unfold p, q.
        pose proof (Rle_0_sqr (a * d - b * c)) as Hsq. unfold Rsqr in Hsq.
        lra. }
  apply Rsqr_incr_0_var.
  - rewrite Rsqr_sqrt.
    2:{ pose proof (Rle_0_sqr (a + c)); pose proof (Rle_0_sqr (b + d)).
        unfold Rsqr in *. lra. }
    unfold Rsqr.
    pose proof (sqrt_sqrt p Hp) as Sp. pose proof (sqrt_sqrt q Hq) as Sq.
    unfold p, q in *. nra.
  - pose proof (sqrt_pos p). pose proof (sqrt_pos q). lra.
Qed.

Lemma Cmod_Csum_le (v : list C) :
  Cmod (Csum v) <= Rsum (map Cmod v).
Proof.
  induction v as [| z v IH]; simpl.
  - rewrite Cmod_C0. lra.
  - eapply Rle_trans; [apply Cmod_triangle |]. lra.
Qed.

(** The exponent built by [2j*np.pi*positions@S] is purely imaginary. *)
Lemma Cexp_phase (x y l m : R) :
  Cexp (Cadd (Cmul (Cmul (Cmul two_j (RtoC PI)) (RtoC x)) (RtoC l))
             (Cmul (Cmul (Cmul two_j (RtoC PI)) (RtoC y)) (RtoC m)))
  = Cis (2 * PI * (x * l + y * m)).
Proof.
  unfold Cexp, Cadd, Cmul, two_j, RtoC, Cis. simpl.
  match goal with
  | |- (exp ?a * cos ?b, exp ?a * sin ?b) = _ =>
      replace a with 0 by ring;
      replace b with (2 * PI * (x * l + y * m)) by ring
  end.
  rewrite exp_0. f_equal; ring.
Qed.

(** ** The phase-sum kernel *)

Lemma exp_matmul_scaled (positions : list (R * R)) (S : list R * list R) :
  map (map Cexp) (matmul (scaled positions) S)
  = map (fun p =>
           map (fun s => Cis (2 * PI * (fst p * fst s + snd p * snd s)))
               (combine (fst S) (snd S)))
        positions.
Proof.
  unfold matmul, scaled. rewrite !map_map.
  apply map_ext. intros p. rewrite map_map.
  apply map_ext. intros s. simpl. apply Cexp_phase.
Qed.

Lemma sum_axis0_columns {A B : Type} (g : A -> B -> C) (rows : list A)
  (cols : list B) :
  sum_axis0 (length cols) (map (fun a => map (g a) cols) rows)
  = map (fun c => Csum (map (fun a => g a c) rows)) cols.
Proof.
  unfold sum_axis0. induction rows as [| a rows IH]; simpl.
  - induction cols as [| c cols IHc]; simpl; auto. now rewrite IHc.
  - rewrite IH. apply map2_map_map.
Qed.

Lemma phase_columns (positions : list (R * R)) (D : list R * list R) :
  length (fst D) = length (snd D) ->
  sum_axis0 (length (fst D)) (map (map Cexp) (matmul (scaled positions) D))
  = map (fun s => coherent_sum positions (fst s) (snd s))
        (combine (fst D) (snd D)).
Proof.
  intros H. rewrite exp_matmul_scaled.
  replace (length (fst D)) with (length (combine (fst D) (snd D))).
  - apply (sum_axis0_columns
             (fun p s => Cis (2 * PI * (fst p * fst s + snd p * snd s)))).
  - rewrite length_combine, <- H. apply Nat.min_id.
Qed.

(** A single steering direction against [P] source directions. *)
Lemma phase_sum_single (positions : list (R * R)) (l m : list R) (l0 m0 : R) :
  length l = length m ->
  phase_sum positions (l, m) ([l0], [m0])
  = Ok (map2 (fun lp mp => coherent_sum positions (lp - l0) (mp - m0)) l m).
Proof.
  intros H. unfold phase_sum, rows_sub. cbn [fst snd].
  rewrite !broadcast_scalar_r. cbn [bind].
  rewrite phase_columns by (cbn [fst snd]; now rewrite !length_map).
  cbn [fst snd]. f_equal. clear. revert m.
  induction l as [| a l IH]; intros [| b m]; simpl; auto.
  f_equal. apply IH.
Qed.

Lemma array_factor_lm_closed (l m : list R) (l0 m0 : R)
  (positions : list (R * R)) :
  length l = length m ->
  array_factor_lm l m l0 m0 positions
  = Ok (map2 (fun lp mp => coherent_sum positions (lp - l0) (mp - m0)) l m).
Proof.
  intros H. unfold array_factor_lm.
  rewrite (np_stack_ok l m H). simpl.
  now apply phase_sum_single.
Qed.

Lemma coherent_sum_zero (positions : list (R * R)) :
  coherent_sum positions 0 0 = (INR (length positions), 0).
Proof.
  unfold coherent_sum.
  induction positions as [| p ps IH].
  - reflexivity.
  - cbn [map Csum fold_right length]. fold (Csum (map
      (fun p => Cis (2 * PI * (fst p * 0 + snd p * 0))) ps)).
    rewrite IH. rewrite S_INR. unfold Cadd, Cis. simpl.
    replace (2 * PI * (fst p * 0 + snd p * 0)) with 0 by ring.
    rewrite cos_0, sin_0. f_equal; ring.
Qed.

Lemma coherent_sum_bound (positions : list (R * R)) (dl dm : R) :
  Cmod (coherent_sum positions dl dm) <= INR (length positions).
Proof.
  unfold coherent_sum.
  eapply Rle_trans; [apply Cmod_Csum_le |].
  rewrite map_map.
  induction positions as [| p ps IH].
  - simpl. lra.
  - cbn [map Rsum fold_right length]. rewrite S_INR, Cmod_Cis.
    fold (Rsum (map (fun x => Cmod (Cis (2 * PI * (fst x * dl + snd x * dm))))
                    ps)).
    lra.
Qed.

Lemma Forall_map2 {A B D : Type} (Q : D -> Prop) (f : A -> B -> D)
  (u : list A) (v : list B) :
  (forall a b, Q (f a b)) -> Forall Q (map2 f u v).
Proof.
  intros H. revert v.
  induction u as [| a u IH]; intros [| b v]; simpl; constructor; auto.
Qed.

Lemma nth_map2 {A B D : Type} (f : A -> B -> D) (u : list A) (v : list B)
  (i : nat) (da : A) (db : B) (dd : D) :
  (i < length u)%nat -> (i < length v)%nat ->
  nth i (map2 f u v) dd = f (nth i u da) (nth i v db).
Proof.
  revert v i. induction u as [| a u IH]; intros [| b v] [| i] Hu Hv;
    simpl in *; try lia; auto.
  apply IH; lia.
Qed.

Lemma first_two_T_map2 (theta phi : list R) :
  first_two_T
    (map2 (fun t p => (sin t * cos p, sin t * sin p, cos t)) theta phi)
  = (map2 (fun t p => sin t * cos p) theta phi,
     map2 (fun t p => sin t * sin p) theta phi).
Proof.
  unfold first_two_T. revert phi.
  induction theta as [| t theta IH]; intros [| p phi]; simpl; auto.
  specialize (IH phi). injection IH as IH1 IH2. now rewrite IH1, IH2.
Qed.

Lemma array_factor_tp_as_lm (theta phi : list R) (theta0 phi0 : R)
  (positions : list (R * R)) :
  length theta = length phi ->
  array_factor_tp theta phi theta0 phi0 positions
  = array_factor_lm (map2 (fun t p => sin t * cos p) theta phi)
                    (map2 (fun t p => sin t * sin p) theta phi)
                    (sin theta0 * cos phi0) (sin theta0 * sin phi0)
                    positions.
Proof.
  intros H. unfold array_factor_tp, array_factor_lm, ang2vec.
  rewrite H, Nat.eqb_refl. cbn [length Nat.eqb bind].
  rewrite first_two_T_map2.
  rewrite np_stack_ok by (rewrite !map2_length; reflexivity).
  reflexivity.
Qed.

(** ** Array manifold and array factor *)

(** C4: for direction-cosine arrays [l], [m] of one length [P] and a (J,2)
    position matrix, [array_manifold] returns a J-by-P matrix whose entry
    (j,p) is exp(i*2*pi*(positions[j,0]*l[p] + positions[j,1]*m[p])), a
    value of magnitude one. *)
Theorem array_manifold_entries (l m : list R) (positions : list (R * R)) :
  length l = length m ->
  exists A,
    array_manifold l m positions = Ok A
    /\ length A = length positions
    /\ (forall j, (j < length positions)%nat ->
          length (nth j A []) = length l)
    /\ (forall j p, (j < length positions)%nat -> (p < length l)%nat ->
          nth p (nth j A []) C0
          = Cis (2 * PI * (fst (nth j positions (0, 0)) * nth p l 0
                           + snd (nth j positions (0, 0)) * nth p m 0))
          /\ Cmod (nth p (nth j A []) C0) = 1).
Proof.
  intros H. unfold array_manifold. rewrite (np_stack_ok l m H).
  cbn [bind]. rewrite exp_matmul_scaled. cbn [fst snd].
  eexists. split; [reflexivity |].
  split; [apply length_map |].
  assert (Hrow : forall j, (j < length positions)%nat ->
            nth j (map (fun p => map (fun s =>
                     Cis (2 * PI * (fst p * fst s + snd p * snd s)))
                     (combine l m)) positions) []
            = map (fun s => Cis (2 * PI * (fst (nth j positions (0, 0)) * fst s
                                 + snd (nth j positions (0, 0)) * snd s)))
                  (combine l m)).
  { intros j Hj.
    rewrite (nth_indep _ [] (map (fun s => Cis (2 * PI *
               (fst (0, 0) * fst s + snd (0, 0) * snd s))) (combine l m)))
      by now rewrite length_map.
    apply (map_nth (fun p => map (fun s =>
             Cis (2 * PI * (fst p * fst s + snd p * snd s))) (combine l m))). }
  split.
  - intros j Hj. rewrite Hrow by assumption.
    rewrite length_map, length_combine, <- H. apply Nat.min_id.
  - intros j p Hj Hp. rewrite Hrow by assumption.
    assert (E : nth p (map (fun s => Cis (2 * PI *
                  (fst (nth j positions (0, 0)) * fst s
                   + snd (nth j positions (0, 0)) * snd s))) (combine l m)) C0
                = Cis (2 * PI * (fst (nth j positions (0, 0)) * nth p l 0
                           + snd (nth j positions (0, 0)) * nth p m 0))).
    { rewrite (nth_indep _ C0 (Cis (2 * PI *
               (fst (nth j positions (0, 0)) * fst (0, 0)
                + snd (nth j positions (0, 0)) * snd (0, 0)))))
        by (rewrite length_map, length_combine, <- H, Nat.min_id; exact Hp).
      rewrite (map_nth (fun s => Cis (2 * PI *
                 (fst (nth j positions (0, 0)) * fst s
                  + snd (nth j positions (0, 0)) * snd s)))).
      rewrite combine_nth by assumption. reflexivity. }
    rewrite E. split; [reflexivity | apply Cmod_Cis].
Qed.

Lemma array_manifold_entries_witness :
  exists A,
    array_manifold [0; 1] [1; 0] [(1, 2)] = Ok A
    /\ length A = length [(1, 2)]
    /\ (forall j, (j < length [(1, 2)])%nat ->
          length (nth j A []) = length [0; 1])
    /\ (forall j p, (j < length [(1, 2)])%nat -> (p < length [0; 1])%nat ->
          nth p (nth j A []) C0
          = Cis (2 * PI * (fst (nth j [(1, 2)] (0, 0)) * nth p [0; 1] 0
                           + snd (nth j [(1, 2)] (0, 0)) * nth p [1; 0] 0))
          /\ Cmod (nth p (nth j A []) C0) = 1).
Proof.
  apply (array_manifold_entries [0; 1] [1; 0] [(1, 2)]). reflexivity.
Defined.

(** C3: with the steering direction equal to the single source direction
    the array factor is the real value J, the number of elements, with
    zero imaginary part; for the direction-cosine variant and, through the
    angle conversion, for the angular variant. *)
Theorem array_factor_in_phase (positions : list (R * R)) :
  (forall l0 m0,
      array_factor_lm [l0] [m0] l0 m0 positions
      = Ok [(INR (length positions), 0)])
  /\ (forall theta0 phi0,
      array_factor_tp [theta0] [phi0] theta0 phi0 positions
      = Ok [(INR (length positions), 0)]).
Proof.
  assert (Hlm : forall l0 m0,
             array_factor_lm [l0] [m0] l0 m0 positions
             = Ok [(INR (length positions), 0)]).
  { intros l0 m0. rewrite array_factor_lm_closed by reflexivity.
    cbn [map2]. rewrite !Rminus_diag. now rewrite coherent_sum_zero. }
  split; [exact Hlm |].
  intros theta0 phi0. rewrite array_factor_tp_as_lm by reflexivity.
  cbn [map2]. apply Hlm.
Qed.

(** C9: every entry of the output of [array_factor_lm] and of
    [array_factor_tp] has magnitude at most J, the number of element
    positions. *)
Theorem array_factor_bounded (positions : list (R * R))
  (l m theta phi : list R) (l0 m0 theta0 phi0 : R) :
  length l = length m ->
  length theta = length phi ->
  (exists a, array_factor_lm l m l0 m0 positions = Ok a
             /\ length a = length l
             /\ Forall (fun z => Cmod z <= INR (length positions)) a)
  /\ (exists a, array_factor_tp theta phi theta0 phi0 positions = Ok a
                /\ length a = length theta
                /\ Forall (fun z => Cmod z <= INR (length positions)) a).
Proof.
  intros Hlm Htp. split.
  - rewrite array_factor_lm_closed by assumption.
    eexists. split; [reflexivity |]. split.
    + rewrite map2_length, <- Hlm. apply Nat.min_id.
    + apply Forall_map2. intros. apply coherent_sum_bound.
  - rewrite array_factor_tp_as_lm by assumption.
    rewrite array_factor_lm_closed by (rewrite !map2_length; reflexivity).
    eexists. split; [reflexivity |]. split.
    + rewrite !map2_length, <- Htp. now rewrite !Nat.min_id.
    + apply Forall_map2. intros. apply coherent_sum_bound.
Qed.

Lemma array_factor_bounded_witness :
  (exists a, array_factor_lm [0; 1] [1; 0] 0 0 [(1, 2); (3, 4)] = Ok a
             /\ length a = length [0; 1]
             /\ Forall (fun z => Cmod z <= INR (length [(1, 2); (3, 4)])) a)
  /\ (exists a, array_factor_tp [0; 1] [1; 0] 0 0 [(1, 2); (3, 4)] = Ok a
                /\ length a = length [0; 1]
                /\ Forall (fun z => Cmod z <= INR (length [(1, 2); (3, 4)])) a).
Proof.
  apply (array_factor_bounded [(1, 2); (3, 4)] [0; 1] [1; 0] [0; 1] [1; 0]
           0 0 0 0); reflexivity.
Defined.

(** C8: on angle arrays of one length, [array_factor_tp] is
    [array_factor_lm] applied to the direction cosines
    l = sin(theta)*cos(phi), m = sin(theta)*sin(phi) and to the steering
    pair l0 = sin(theta0)*cos(phi0), m0 = sin(theta0)*sin(phi0). *)
Theorem array_factor_tp_refines_lm (theta phi : list R) (theta0 phi0 : R)
  (positions : list (R * R)) :
  length theta = length phi ->
  array_factor_tp theta phi theta0 phi0 positions
  = array_factor_lm (map2 (fun t p => sin t * cos p) theta phi)
                    (map2 (fun t p => sin t * sin p) theta phi)
                    (sin theta0 * cos phi0) (sin theta0 * sin phi0)
                    positions
  /\ exists a, array_factor_tp theta phi theta0 phi0 positions = Ok a
               /\ length a = length theta.
Proof.
  intros H. split; [now apply array_factor_tp_as_lm |].
  rewrite array_factor_tp_as_lm by assumption.
  rewrite array_factor_lm_closed by (rewrite !map2_length; reflexivity).
  eexists. split; [reflexivity |].
  rewrite !map2_length, <- H. now rewrite !Nat.min_id.
Qed.

Lemma array_factor_tp_refines_lm_witness :
  array_factor_tp [0; 1] [1; 0] 0 0 [(1, 2)]
  = array_factor_lm (map2 (fun t p => sin t * cos p) [0; 1] [1; 0])
                    (map2 (fun t p => sin t * sin p) [0; 1] [1; 0])
                    (sin 0 * cos 0) (sin 0 * sin 0) [(1, 2)]
  /\ exists a, array_factor_tp [0; 1] [1; 0] 0 0 [(1, 2)] = Ok a
               /\ length a = length [0; 1].
Proof.
  apply (array_factor_tp_refines_lm [0; 1] [1; 0] 0 0 [(1, 2)]). reflexivity.
Defined.

(** ** The batched pixel-grid variant *)

Lemma mapM_Ok {A B : Type} (g : A -> B) (l : list A) :
  mapM (fun a => Ok (g a)) l = Ok (map g l).
Proof.
  induction l as [| a l IH]; simpl; auto. now rewrite IH.
Qed.

Lemma mapM_ext {A B : Type} (f g : A -> result B) (l : list A) :
  (forall a, f a = g a) -> mapM f l = mapM g l.
Proof.
  intros H. induction l as [| a l IH]; simpl; auto. now rewrite H, IH.
Qed.

Lemma np_tile_nat {A : Type} (v : list A) (n : nat) :
  np_tile v (Z.of_nat n) = Ok (concat (repeat v n)).
Proof.
  unfold np_tile. destruct v as [| a v].
  - f_equal. induction n as [| n IH]; simpl; auto.
  - destruct (Z.ltb_spec (Z.of_nat n) 0); [lia |].
    now rewrite Nat2Z.id.
Qed.

Lemma np_repeat_nat {A : Type} (v : list A) (n : nat) :
  np_repeat v (Z.of_nat n) = Ok (flat_map (fun a => repeat a n) v).
Proof.
  unfold np_repeat. destruct v as [| a v]; [reflexivity |].
  destruct (Z.ltb_spec (Z.of_nat n) 0); [lia |].
  now rewrite Nat2Z.id.
Qed.

Lemma length_flat_map_const {A B : Type} (g : A -> list B) (n : nat)
  (ks : list A) :
  (forall k, length (g k) = n) ->
  length (flat_map g ks) = (length ks * n)%nat.
Proof.
  intros H. induction ks as [| k ks IH]; simpl; auto.
  rewrite length_app, IH, H. reflexivity.
Qed.

Lemma np_reshape_flat_map {A B : Type} (g : A -> list B) (n : nat)
  (ks : list A) :
  (forall k, length (g k) = n) ->
  np_reshape (length ks) n (flat_map g ks) = Ok (map g ks).
Proof.
  intros H. unfold np_reshape.
  rewrite (length_flat_map_const g n ks H), Nat.eqb_refl. f_equal.
  induction ks as [| k ks IH]; auto.
  cbn [length seq map flat_map]. f_equal.
  - cbn [Nat.mul skipn]. rewrite firstn_app, H, Nat.sub_diag.
    cbn [firstn]. rewrite app_nil_r. rewrite <- (H k). apply firstn_all.
  - rewrite <- seq_shift, map_map. rewrite <- IH. apply map_ext.
    intros r. f_equal. cbn [Nat.mul].
    rewrite skipn_app, H.
    replace (n + r * n - n)%nat with (r * n)%nat by lia.
    rewrite skipn_all2 by (rewrite H; lia). reflexivity.
Qed.

Lemma tiled_minus_repeated (sx s0x : list R) :
  map2 Rminus (concat (repeat sx (length s0x)))
              (flat_map (fun a => repeat a (length sx)) s0x)
  = flat_map (fun a => map (fun x => x - a) sx) s0x.
Proof.
  induction s0x as [| a s0x IH]; auto.
  cbn [length repeat concat flat_map].
  rewrite map2_app by now rewrite repeat_length.
  now rewrite map2_repeat_r, IH.
Qed.

Lemma combine_flat_map {A B D : Type} (g : A -> list B) (h : A -> list D)
  (ks : list A) :
  (forall k, length (g k) = length (h k)) ->
  combine (flat_map g ks) (flat_map h ks)
  = flat_map (fun k => combine (g k) (h k)) ks.
Proof.
  intros H. induction ks as [| k ks IH]; auto.
  cbn [flat_map]. rewrite combine_app by apply H. now rewrite IH.
Qed.

Lemma map_flat_map {A B D : Type} (f : B -> D) (g : A -> list B)
  (ks : list A) :
  map f (flat_map g ks) = flat_map (fun k => map f (g k)) ks.
Proof.
  induction ks as [| k ks IH]; auto.
  cbn [flat_map]. now rewrite map_app, IH.
Qed.

Lemma flat_map_ext_all {A B : Type} (g h : A -> list B) (ks : list A) :
  (forall k, g k = h k) -> flat_map g ks = flat_map h ks.
Proof.
  intros H. induction ks as [| k ks IH]; auto.
  cbn [flat_map]. now rewrite H, IH.
Qed.

Section HealpixProperties.
Variable pix2vec : Z -> Z -> R * R * R.
Variable nside : Z.
Variable positions : list (R * R).

Lemma array_factor_hp_closed (source_pixels : list Z) (scan_pixel : Z) :
  array_factor_hp pix2vec nside source_pixels scan_pixel positions
  = Ok (steered_row pix2vec nside positions source_pixels scan_pixel).
Proof.
  unfold array_factor_hp, hp_pix2vec.
  rewrite np_stack_ok by now rewrite !length_map.
  cbn [bind map]. rewrite np_stack_ok by reflexivity. cbn [bind].
  rewrite phase_sum_single by now rewrite !length_map.
  f_equal. unfold steered_row.
  apply (map2_map_map (fun lp mp =>
           coherent_sum positions (lp - pixel_l pix2vec nside scan_pixel)
                                  (mp - pixel_m pix2vec nside scan_pixel))).
Qed.

Lemma array_factor_hpmatrix_closed (source_pixels scan_pixels : list Z) :
  array_factor_hpmatrix pix2vec nside source_pixels scan_pixels positions
  = Ok (map (steered_row pix2vec nside positions source_pixels) scan_pixels).
Proof.
  unfold array_factor_hpmatrix, hp_pix2vec.
  rewrite np_stack_ok by now rewrite !length_map. cbn [bind].
  rewrite np_stack_ok by now rewrite !length_map. cbn [bind fst snd].
  rewrite !np_tile_nat, !np_repeat_nat. cbn [bind].
  change (fun p => fst (fst (pix2vec nside p))) with (pixel_l pix2vec nside).
  change (fun p => snd (fst (pix2vec nside p))) with (pixel_m pix2vec nside).
  set (sx := map (pixel_l pix2vec nside) source_pixels).
  set (sy := map (pixel_m pix2vec nside) source_pixels).
  set (s0x := map (pixel_l pix2vec nside) scan_pixels).
  set (s0y := map (pixel_m pix2vec nside) scan_pixels).
  assert (Lx : length sx = length source_pixels) by apply length_map.
  assert (Ly : length sy = length source_pixels) by apply length_map.
  assert (L0x : length s0x = length scan_pixels) by apply length_map.
  assert (L0y : length s0y = length scan_pixels) by apply length_map.
  assert (Bc : forall u u0 : list R,
             length u = length source_pixels ->
             length u0 = length scan_pixels ->
             broadcast Rminus (concat (repeat u (length scan_pixels)))
               (flat_map (fun a => repeat a (length source_pixels)) u0)
             = Ok (flat_map (fun a => map (fun x => x - a) u) u0)).
  { intros u u0 Hu Hu0. rewrite <- Hu, <- Hu0.
    rewrite broadcast_same; [now rewrite tiled_minus_repeated |].
    rewrite length_concat, (length_flat_map_const _ (length u)).
    - rewrite map_repeat. clear. induction (length u0); simpl; lia.
    - intros. apply repeat_length. }
  unfold phase_sum, rows_sub. cbn [fst snd].
  rewrite (Bc sx s0x Lx L0x), (Bc sy s0y Ly L0y). cbn [bind].
  rewrite phase_columns; cbn [fst snd].
  2:{ rewrite !(length_flat_map_const _ (length source_pixels)).
      - now rewrite L0x, L0y.
      - intros. now rewrite length_map.
      - intros. now rewrite length_map. }
  unfold s0x, s0y. rewrite !flat_map_concat_map, !map_map.
  rewrite <- !flat_map_concat_map.
  rewrite (combine_flat_map
             (fun p => map (fun x => x - pixel_l pix2vec nside p) sx)
             (fun p => map (fun y => y - pixel_m pix2vec nside p) sy))
    by (intros; now rewrite !length_map, Lx, Ly).
  rewrite map_flat_map.
  rewrite (flat_map_ext_all _
             (steered_row pix2vec nside positions source_pixels)).
  - apply np_reshape_flat_map. intros. apply length_map.
  - intros s. unfold steered_row, pixel_l, pixel_m, sx, sy.
    rewrite !map_map, combine_map_map, map_map. reflexivity.
Qed.

(** C2: the batched variant is the single-steer variant called once per
    scan pixel with the rows stacked: row i of
    [array_factor_hpmatrix(nside, source_pixels, scan_pixels, positions)] is
    [array_factor_hp(nside, source_pixels, scan_pixels[i], positions)], and
    with one scan pixel its only row is the single-steer output. *)
Theorem array_factor_hpmatrix_rows (source_pixels scan_pixels : list Z) :
  array_factor_hpmatrix pix2vec nside source_pixels scan_pixels positions
  = mapM (fun s => array_factor_hp pix2vec nside source_pixels s positions)
         scan_pixels
  /\ (exists A,
        array_factor_hpmatrix pix2vec nside source_pixels scan_pixels positions
        = Ok A
        /\ length A = length scan_pixels
        /\ forall i, (i < length scan_pixels)%nat ->
             array_factor_hp pix2vec nside source_pixels
               (nth i scan_pixels 0%Z) positions
             = Ok (nth i A [])
             /\ length (nth i A []) = length source_pixels)
  /\ (forall s, exists a,
        array_factor_hp pix2vec nside source_pixels s positions = Ok a
        /\ array_factor_hpmatrix pix2vec nside source_pixels [s] positions
           = Ok [a]).
Proof.
  repeat split.
  - rewrite array_factor_hpmatrix_closed.
    rewrite (mapM_ext _
               (fun s =>
                  Ok (steered_row pix2vec nside positions source_pixels s)))
      by (intros; apply array_factor_hp_closed).
    now rewrite mapM_Ok.
  - rewrite array_factor_hpmatrix_closed.
    eexists. split; [reflexivity |]. split; [apply length_map |].
    intros i Hi.
    rewrite array_factor_hp_closed.
    rewrite (nth_indep _ []
               (steered_row pix2vec nside positions source_pixels 0%Z))
      by now rewrite length_map.
    rewrite (map_nth (steered_row pix2vec nside positions source_pixels)).
    split; [reflexivity | apply length_map].
  - intros s. exists (steered_row pix2vec nside positions source_pixels s).
    split; [apply array_factor_hp_closed |].
    now rewrite array_factor_hpmatrix_closed.
Qed.

End HealpixProperties.

(** ** Geometry *)

Lemma combine_repeat_r {A B : Type} (xs : list A) (b : B) :
  combine xs (repeat b (length xs)) = map (fun a => (a, b)) xs.
Proof.
  induction xs as [| a xs IH]; simpl; auto. now rewrite IH.
Qed.

Lemma combine_tile_repeat {A B : Type} (xs : list A) (ys : list B) :
  combine (concat (repeat xs (length ys)))
          (flat_map (fun b => repeat b (length xs)) ys)
  = flat_map (fun b => map (fun a => (a, b)) xs) ys.
Proof.
  induction ys as [| b ys IH]; auto.
  cbn [length repeat concat flat_map].
  rewrite combine_app by now rewrite repeat_length.
  now rewrite combine_repeat_r, IH.
Qed.

Lemma combine_map_l_r {A B A' B' : Type} (f : A -> A') (g : B -> B')
  (u : list A) (v : list B) :
  combine (map f u) (map g v)
  = map (fun p => (f (fst p), g (snd p))) (combine u v).
Proof.
  revert v. induction u as [| a u IH]; intros [| b v]; simpl; auto.
  now rewrite IH.
Qed.

Lemma flat_map_map {A B D : Type} (g : A -> B) (f : B -> list D)
  (l : list A) :
  flat_map f (map g l) = flat_map (fun a => f (g a)) l.
Proof.
  induction l as [| a l IH]; simpl; auto. now rewrite IH.
Qed.

Lemma length_tile {A : Type} (xs : list A) (n : nat) :
  length (concat (repeat xs n)) = (n * length xs)%nat.
Proof.
  induction n as [| n IH]; simpl; auto. now rewrite length_app, IH.
Qed.

Lemma np_tile_nonneg {A : Type} (v : list A) (n : Z) :
  (0 <= n)%Z -> np_tile v n = Ok (concat (repeat v (Z.to_nat n))).
Proof.
  intros H. rewrite <- (Z2Nat.id n) at 1 by assumption. apply np_tile_nat.
Qed.

Lemma np_repeat_nonneg {A : Type} (v : list A) (n : Z) :
  (0 <= n)%Z ->
  np_repeat v n = Ok (flat_map (fun a => repeat a (Z.to_nat n)) v).
Proof.
  intros H. rewrite <- (Z2Nat.id n) at 1 by assumption. apply np_repeat_nat.
Qed.

Lemma upa_positions_lattice (Nx Ny : Z) (dx dy : R) :
  (0 <= Nx)%Z -> (0 <= Ny)%Z ->
  upa_positions Nx Ny dx dy
  = Ok (rectangular_lattice (Z.to_nat Nx) (Z.to_nat Ny) dx dy).
Proof.
  intros Hx Hy. unfold upa_positions.
  rewrite np_tile_nonneg, np_repeat_nonneg by assumption. cbn [bind].
  set (nx := Z.to_nat Nx). set (ny := Z.to_nat Ny).
  unfold np_arange. fold nx ny.
  set (xs := map INR (seq 0 nx)). set (ys := map INR (seq 0 ny)).
  assert (Lx : length xs = nx)
    by (unfold xs; now rewrite length_map, length_seq).
  assert (Ly : length ys = ny)
    by (unfold ys; now rewrite length_map, length_seq).
  unfold np_stack1.
  rewrite !length_map, length_tile, (length_flat_map_const _ nx)
    by (intros; apply repeat_length).
  rewrite Lx, Ly, Nat.eqb_refl. f_equal.
  rewrite combine_map_l_r.
  pose proof (combine_tile_repeat xs ys) as E. rewrite Lx, Ly in E.
  rewrite E, map_flat_map.
  unfold rectangular_lattice, ys. rewrite flat_map_map.
  apply flat_map_ext_all. intros j. unfold xs. rewrite !map_map.
  reflexivity.
Qed.

Lemma length_rectangular_lattice (nx ny : nat) (dx dy : R) :
  length (rectangular_lattice nx ny dx dy) = (nx * ny)%nat.
Proof.
  unfold rectangular_lattice.
  rewrite (length_flat_map_const _ nx)
    by (intros; now rewrite length_map, length_seq).
  rewrite length_seq. apply Nat.mul_comm.
Qed.

Lemma nth_flat_map_rows {A B : Type} (g : A -> list B) (n : nat)
  (ks : list A) (j i : nat) (da : A) (db : B) :
  (forall k, length (g k) = n) ->
  (j < length ks)%nat -> (i < n)%nat ->
  nth (j * n + i) (flat_map g ks) db = nth i (g (nth j ks da)) db.
Proof.
  intros H. revert j. induction ks as [| k ks IH]; intros j Hj Hi.
  - simpl in Hj. lia.
  - cbn [flat_map]. destruct j as [| j].
    + cbn [Nat.mul Nat.add nth]. apply app_nth1. now rewrite H.
    + rewrite app_nth2 by (rewrite H; simpl; lia).
      rewrite H. replace (S j * n + i - n)%nat with (j * n + i)%nat
        by (simpl; lia).
      cbn [nth]. apply IH; [simpl in Hj; lia | assumption].
Qed.

Lemma nth_rectangular_lattice (nx ny : nat) (dx dy : R) (i j : nat) :
  (i < nx)%nat -> (j < ny)%nat ->
  nth (j * nx + i) (rectangular_lattice nx ny dx dy) (0, 0)
  = (INR i * dx, INR j * dy).
Proof.
  intros Hi Hj. unfold rectangular_lattice.
  rewrite (nth_flat_map_rows _ nx _ j i 0%nat)
    by (try (intros; now rewrite length_map, length_seq);
        try (now rewrite length_seq); assumption).
  rewrite seq_nth by assumption.
  rewrite (nth_indep _ (0, 0) (INR 0 * dx, INR (0 + j) * dy))
    by now rewrite length_map, length_seq.
  rewrite (map_nth (fun i0 => (INR i0 * dx, INR (0 + j) * dy))).
  now rewrite seq_nth by assumption.
Qed.

Lemma sqrt3_bounds : 1 < sqrt 3 < 2.
Proof.
  split.
  - rewrite <- sqrt_1 at 1. apply sqrt_lt_1_alt. lra.
  - apply Rlt_le_trans with (sqrt (2 * 2)).
    + apply sqrt_lt_1_alt. lra.
    + rewrite sqrt_square; lra.
Qed.

Lemma np_round_lower (x : R) : 1 / 2 < x -> (1 <= np_round x)%Z.
Proof.
  intros Hx. unfold np_round.
  destruct (base_Int_part x) as [Hlo Hhi].
  set (f := Int_part x) in *.
  assert (Hf : (0 <= f)%Z).
  { assert (-1 < IZR f) by lra.
    assert (-1 < f)%Z by (apply lt_IZR; exact H). lia. }
  destruct (Z.eq_dec f 0) as [E | E].
  - rewrite E. rewrite Rminus_0_r.
    destruct (Rlt_dec x (1 / 2)) as [H | H]; [lra |].
    destruct (Rlt_dec (1 / 2) x) as [H' | H']; [lia | lra].
  - destruct (Rlt_dec (x - IZR f) (1 / 2)); [lia |].
    destruct (Rlt_dec (1 / 2) (x - IZR f)); [lia |].
    destruct (Z.even f); lia.
Qed.

Lemma hex_rows_positive (Nx : Z) :
  (1 <= Nx)%Z -> (1 <= np_round (IZR Nx / sqrt 3))%Z.
Proof.
  intros H. apply np_round_lower.
  destruct sqrt3_bounds as [Hlo Hhi].
  assert (H1 : 1 <= IZR Nx) by (apply IZR_le in H; exact H).
  apply Rlt_le_trans with (1 / sqrt 3).
  - apply Rmult_lt_reg_r with (sqrt 3); [lra |].
    replace (1 / sqrt 3 * sqrt 3) with 1 by (field; lra). lra.
  - unfold Rdiv. apply Rmult_le_compat_r; [| exact H1].
    apply Rlt_le, Rinv_0_lt_compat. lra.
Qed.

Lemma np_round_nearest (x : R) : Rabs (IZR (np_round x) - x) <= 1 / 2.
Proof.
  unfold np_round. destruct (base_Int_part x) as [Hlo Hhi].
  set (f := Int_part x) in *.
  destruct (Rlt_dec (x - IZR f) (1 / 2)) as [H1 | H1].
  - apply Rabs_le. lra.
  - destruct (Rlt_dec (1 / 2) (x - IZR f)) as [H2 | H2].
    + rewrite plus_IZR. apply Rabs_le. lra.
    + destruct (Z.even f); [| rewrite plus_IZR]; apply Rabs_le; lra.
Qed.

Lemma sqrt3_no_half_integer (Nx k : Z) :
  IZR Nx / sqrt 3 <> IZR k + 1 / 2.
Proof.
  intros E. destruct sqrt3_bounds as [Hs1 Hs2].
  assert (Hs : sqrt 3 * sqrt 3 = 3) by (apply sqrt_sqrt; lra).
  assert (E1 : IZR Nx = (IZR k + 1 / 2) * sqrt 3)
    by (rewrite <- E; field; lra).
  assert (E2 : IZR (4 * (Nx * Nx)) = IZR (3 * ((2 * k + 1) * (2 * k + 1)))).
  { rewrite !mult_IZR, plus_IZR, mult_IZR. rewrite E1.
    replace (4 * ((IZR k + 1 / 2) * sqrt 3 * ((IZR k + 1 / 2) * sqrt 3)))
      with ((2 * IZR k + 1) * (2 * IZR k + 1) * (sqrt 3 * sqrt 3))
      by field.
    rewrite Hs. ring. }
  apply eq_IZR in E2. lia.
Qed.

Lemma hex_rows_nearest (Nx : Z) :
  Rabs (IZR (np_round (IZR Nx / sqrt 3)) - IZR Nx / sqrt 3) < 1 / 2
  /\ forall k : Z,
       Rabs (IZR k - IZR Nx / sqrt 3) <= 1 / 2 ->
       k = np_round (IZR Nx / sqrt 3).
Proof.
  set (x := IZR Nx / sqrt 3). set (Ny := np_round x).
  pose proof (np_round_nearest x) as Hle. fold Ny in Hle.
  assert (Hlt : Rabs (IZR Ny - x) < 1 / 2).
  { destruct Hle as [Hlt | Heq]; [exact Hlt | exfalso].
    unfold Rabs in Heq. destruct (Rcase_abs (IZR Ny - x)) as [Hn | Hp].
    - apply (sqrt3_no_half_integer Nx Ny). fold x. lra.
    - apply (sqrt3_no_half_integer Nx (Ny - 1)). fold x.
      rewrite minus_IZR. lra. }
  split; [exact Hlt |].
  intros k Hk.
  pose proof (Rle_abs (IZR k - x)) as K1.
  pose proof (Rle_abs (- (IZR k - x))) as K2. rewrite Rabs_Ropp in K2.
  pose proof (Rle_abs (IZR Ny - x)) as N1.
  pose proof (Rle_abs (- (IZR Ny - x))) as N2. rewrite Rabs_Ropp in N2.
  assert (H1 : (k - Ny < 1)%Z) by (apply lt_IZR; rewrite minus_IZR; lra).
  assert (H2 : (-1 < k - Ny)%Z) by (apply lt_IZR; rewrite minus_IZR; lra).
  lia.
Qed.

(** C5: for [nx >= 1], [hex_positions(nx, dx)] is the rectangular lattice
    (nx, ny, dx, dy) followed by the rectangular lattice
    (nx-1, ny-1, dx, dy) shifted by (dx/2, dy/2), with dy = dx*sqrt(3) and
    ny = round(nx/sqrt(3)), the one integer within 1/2 of nx/sqrt(3);
    [upa_positions] places position(i,j) = (i*dx, j*dy) at index j*nx + i;
    the element count is nx*ny + (nx-1)*(ny-1). *)
Theorem hex_positions_sublattices (Nx : Z) (dx : R) :
  (1 <= Nx)%Z ->
  let dy := dx * sqrt 3 in
  let Ny := np_round (IZR Nx / sqrt 3) in
  let nx := Z.to_nat Nx in
  let ny := Z.to_nat Ny in
  (1 <= Ny)%Z
  /\ Rabs (IZR Ny - IZR Nx / sqrt 3) < 1 / 2
  /\ (forall k : Z, Rabs (IZR k - IZR Nx / sqrt 3) <= 1 / 2 -> k = Ny)
  /\ upa_positions Nx Ny dx dy = Ok (rectangular_lattice nx ny dx dy)
  /\ upa_positions (Nx - 1) (Ny - 1) dx dy
     = Ok (rectangular_lattice (nx - 1) (ny - 1) dx dy)
  /\ (forall i j, (i < nx)%nat -> (j < ny)%nat ->
        nth (j * nx + i) (rectangular_lattice nx ny dx dy) (0, 0)
        = (INR i * dx, INR j * dy))
  /\ exists p,
       hex_positions Nx dx = Ok p
       /\ p = rectangular_lattice nx ny dx dy
              ++ map (fun q => (fst q + dx / 2, snd q + dy / 2))
                     (rectangular_lattice (nx - 1) (ny - 1) dx dy)
       /\ Z.of_nat (length p) = (Nx * Ny + (Nx - 1) * (Ny - 1))%Z.
Proof.
  intros H dy Ny nx ny.
  assert (HNy : (1 <= Ny)%Z) by now apply hex_rows_positive.
  assert (U1 : upa_positions Nx Ny dx dy
               = Ok (rectangular_lattice nx ny dx dy))
    by (apply upa_positions_lattice; lia).
  assert (U2 : upa_positions (Nx - 1) (Ny - 1) dx dy
               = Ok (rectangular_lattice (nx - 1) (ny - 1) dx dy)).
  { rewrite upa_positions_lattice by lia.
    unfold nx, ny. now rewrite !Z2Nat.inj_sub by lia. }
  split; [exact HNy |].
  split; [apply hex_rows_nearest |]. split; [apply hex_rows_nearest |].
  split; [exact U1 |]. split; [exact U2 |].
  split; [intros i j; apply nth_rectangular_lattice |].
  eexists. split; [| split; [reflexivity |]].
  - unfold hex_positions. fold dy Ny. rewrite U1, U2. reflexivity.
  - rewrite length_app, length_map, !length_rectangular_lattice.
    unfold nx, ny.
    rewrite Nat2Z.inj_add, !Nat2Z.inj_mul, !Nat2Z.inj_sub by lia.
    rewrite !Z2Nat.id by lia. reflexivity.
Qed.

Lemma hex_positions_sublattices_witness :
  let dx := 1 in
  let dy := dx * sqrt 3 in
  let Ny := np_round (IZR 5 / sqrt 3) in
  let nx := Z.to_nat 5 in
  let ny := Z.to_nat Ny in
  (1 <= Ny)%Z
  /\ Rabs (IZR Ny - IZR 5 / sqrt 3) < 1 / 2
  /\ (forall k : Z, Rabs (IZR k - IZR 5 / sqrt 3) <= 1 / 2 -> k = Ny)
  /\ upa_positions 5 Ny dx dy = Ok (rectangular_lattice nx ny dx dy)
  /\ upa_positions (5 - 1) (Ny - 1) dx dy
     = Ok (rectangular_lattice (nx - 1) (ny - 1) dx dy)
  /\ (forall i j, (i < nx)%nat -> (j < ny)%nat ->
        nth (j * nx + i) (rectangular_lattice nx ny dx dy) (0, 0)
        = (INR i * dx, INR j * dy))
  /\ exists p,
       hex_positions 5 dx = Ok p
       /\ p = rectangular_lattice nx ny dx dy
              ++ map (fun q => (fst q + dx / 2, snd q + dy / 2))
                     (rectangular_lattice (nx - 1) (ny - 1) dx dy)
       /\ Z.of_nat (length p) = (5 * Ny + (5 - 1) * (Ny - 1))%Z.
Proof.
  apply (hex_positions_sublattices 5 1). lia.
Defined.

(** ** Numerical directivity *)

Lemma map2_map_r {A B B' D : Type} (f : A -> B' -> D) (g : B -> B')
  (u : list A) (v : list B) :
  map2 f u (map g v) = map2 (fun a b => f a (g b)) u v.
Proof.
  revert v. induction u as [| a u IH]; intros [| b v]; simpl; auto.
  now rewrite IH.
Qed.

Lemma mapM_weighted_rows (PowerPattern : list (list R)) (theta : list R) :
  Forall (fun row => length row = length theta) PowerPattern ->
  mapM (fun row => broadcast Rmult row (map sin theta)) PowerPattern
  = Ok (map (fun row => map2 (fun p t => p * sin t) row theta) PowerPattern).
Proof.
  induction 1 as [| row rows Hrow Hrows IH]; auto.
  cbn [mapM map]. rewrite broadcast_same by now rewrite length_map.
  cbn [bind]. rewrite IH. cbn [bind]. now rewrite map2_map_r.
Qed.

Lemma getitem_two (v : list R) :
  (2 <= length v)%nat ->
  getitem v 1 = Ok (nth 1 v 0) /\ getitem v 0 = Ok (nth 0 v 0).
Proof.
  destruct v as [| a [| b v]]; simpl; intros H; try lia.
  split; reflexivity.
Qed.

Lemma getitem_short (v : list R) :
  (length v < 2)%nat -> getitem v 1 = Raise IndexError.
Proof.
  destruct v as [| a [| b v]]; simpl; intros H; try lia; reflexivity.
Qed.

Lemma radiated_power_rule (PowerPattern : list (list R)) (theta phi : list R) :
  (2 <= length theta)%nat -> (2 <= length phi)%nat ->
  Forall (fun row => length row = length theta) PowerPattern ->
  radiated_power PowerPattern theta phi
  = Ok (rectangle_rule PowerPattern theta
          (nth 1 theta 0 - nth 0 theta 0) (nth 1 phi 0 - nth 0 phi 0)).
Proof.
  intros Ht Hp Hrows. unfold radiated_power.
  destruct (getitem_two theta Ht) as [E1 E0]. rewrite E1, E0.
  destruct (getitem_two phi Hp) as [F1 F0]. rewrite F1, F0.
  cbn [bind]. rewrite mapM_weighted_rows by assumption. cbn [bind].
  unfold rectangle_rule. now rewrite !map_map.
Qed.

Lemma radiated_power_short (PowerPattern : list (list R)) (theta phi : list R) :
  (length theta < 2)%nat \/ (length phi < 2)%nat ->
  radiated_power PowerPattern theta phi = Raise IndexError.
Proof.
  intros H. unfold radiated_power.
  destruct (le_lt_dec 2 (length theta)) as [Ht | Ht].
  - destruct H as [H | H]; [lia |].
    destruct (getitem_two theta Ht) as [E1 E0]. rewrite E1, E0.
    cbn [bind]. now rewrite getitem_short.
  - now rewrite getitem_short.
Qed.

Lemma fold_left_Rmax_spec (xs : list R) (x : R) :
  In (fold_left Rmax xs x) (x :: xs)
  /\ forall y, In y (x :: xs) -> y <= fold_left Rmax xs x.
Proof.
  revert x. induction xs as [| a xs IH]; intros x.
  - simpl. split; [now left |]. intros y [<- | []]. lra.
  - cbn [fold_left]. destruct (IH (Rmax x a)) as [Hin Hle]. split.
    + destruct Hin as [E | Hin].
      * rewrite <- E. unfold Rmax. destruct (Rle_dec x a).
        -- right. now left.
        -- now left.
      * right. now right.
    + intros y [<- | [<- | Hy]].
      * eapply Rle_trans; [apply Rmax_l | apply Hle; now left].
      * eapply Rle_trans; [apply Rmax_r | apply Hle; now left].
      * apply Hle. now right.
Qed.

Lemma np_max_spec (M : list (list R)) :
  concat M <> [] ->
  exists pmax,
    np_max M = Ok pmax
    /\ In pmax (concat M)
    /\ forall x, In x (concat M) -> x <= pmax.
Proof.
  intros H. unfold np_max. destruct (concat M) as [| x xs]; [easy |].
  exists (fold_left Rmax xs x).
  destruct (fold_left_Rmax_spec xs x) as [Hin Hle]. auto.
Qed.

Lemma concat_rows_nonempty {A : Type} (M : list (list A)) (n : nat) :
  M <> [] -> (0 < n)%nat -> Forall (fun row => length row = n) M ->
  concat M <> [].
Proof.
  intros HM Hn Hrows. destruct M as [| row M]; [easy |].
  inversion Hrows as [| ? ? Hrow _]; subst.
  destruct row; simpl in *; [lia | discriminate].
Qed.



(** C10, as the code has it: [radiated_power] reads [theta[1]] and
    [phi[1]] before anything else: a theta or phi vector with fewer than
    two samples makes it, and [numerical_directivity] with it, raise
    instead of returning a value; with two samples or more in both every
    index access is in bounds, and the functions return when, besides, the
    pattern rows match theta (and, for [numerical_directivity], the pattern
    is not empty). *)
Theorem radiated_power_two_samples (PowerPattern : list (list R))
  (theta phi : list R) :
  ((length theta < 2)%nat \/ (length phi < 2)%nat ->
     radiated_power PowerPattern theta phi = Raise IndexError
     /\ (concat PowerPattern <> [] ->
           numerical_directivity PowerPattern theta phi = Raise IndexError)
     /\ exists e, numerical_directivity PowerPattern theta phi = Raise e)
  /\ ((2 <= length theta)%nat -> (2 <= length phi)%nat ->
      Forall (fun row => length row = length theta) PowerPattern ->
      getitem theta 1 = Ok (nth 1 theta 0)
      /\ getitem theta 0 = Ok (nth 0 theta 0)
      /\ getitem phi 1 = Ok (nth 1 phi 0)
      /\ getitem phi 0 = Ok (nth 0 phi 0)
      /\ radiated_power PowerPattern theta phi
         = Ok (rectangle_rule PowerPattern theta
                 (nth 1 theta 0 - nth 0 theta 0)
                 (nth 1 phi 0 - nth 0 phi 0))
      /\ (PowerPattern <> [] ->
            exists d, numerical_directivity PowerPattern theta phi = Ok d)).
Proof.
  split.
  - intros H. pose proof (radiated_power_short PowerPattern theta phi H) as E.
    split; [exact E |]. unfold numerical_directivity, np_max. split.
    + intros Hne. destruct (concat PowerPattern); [easy |].
      cbn [bind]. now rewrite E.
    + destruct (concat PowerPattern).
      * now exists ValueError.
      * exists IndexError. cbn [bind]. now rewrite E.
  - intros Ht Hp Hrows.
    destruct (getitem_two theta Ht) as [E1 E0].
    destruct (getitem_two phi Hp) as [F1 F0].
    repeat (split; [assumption |]).
    pose proof (radiated_power_rule PowerPattern theta phi Ht Hp Hrows) as E.
    split; [exact E |].
    intros HP.
    destruct (np_max_spec PowerPattern) as (pmax & Hmax & _).
    { apply (concat_rows_nonempty _ (length theta)); auto; lia. }
    unfold numerical_directivity. rewrite Hmax. cbn [bind]. rewrite E.
    eexists. reflexivity.
Qed.

(** C10 fails without a condition on the pattern: with two samples in theta
    and in phi, a pattern row of three entries is refused by the broadcast
    against sin(theta), and an empty pattern by [np.max]. *)
Lemma radiated_power_not_total :
  (2 <= length [0; 1])%nat
  /\ (2 <= length [0; 2])%nat
  /\ radiated_power [[1; 2; 3]] [0; 1] [0; 2] = Raise ValueError
  /\ numerical_directivity [[1; 2; 3]] [0; 1] [0; 2] = Raise ValueError
  /\ numerical_directivity [] [0; 1] [0; 2] = Raise ValueError.
Proof.
  split; [simpl; lia |]. split; [simpl; lia |].
  split; [reflexivity |]. split; reflexivity.
Qed.

(** ** Analytical directivity *)

Lemma mk_matrix_ext {A : Type} (n m : nat) (f g : nat -> nat -> A) :
  (forall r c, (r < n)%nat -> (c < m)%nat -> f r c = g r c) ->
  mk_matrix n m f = mk_matrix n m g.
Proof.
  intros H. unfold mk_matrix. apply map_ext_in. intros r Hr.
  apply map_ext_in. intros c Hc.
  apply in_seq in Hr. apply in_seq in Hc. apply H; lia.
Qed.

Lemma map2_mk_matrix {A B D : Type} (h : A -> B -> D) (n m : nat)
  (f : nat -> nat -> A) (g : nat -> nat -> B) :
  map2 (map2 h) (mk_matrix n m f) (mk_matrix n m g)
  = mk_matrix n m (fun r c => h (f r c) (g r c)).
Proof.
  unfold mk_matrix.
  rewrite (map2_map_map (map2 h)). apply map_ext. intros r.
  apply (map2_map_map h).
Qed.

Lemma map_mk_matrix {A B : Type} (h : A -> B) (n m : nat)
  (f : nat -> nat -> A) :
  map (map h) (mk_matrix n m f) = mk_matrix n m (fun r c => h (f r c)).
Proof.
  unfold mk_matrix. rewrite map_map. apply map_ext. intros r.
  now rewrite map_map.
Qed.

Lemma Cadd_assoc (x y z : C) : Cadd (Cadd x y) z = Cadd x (Cadd y z).
Proof. unfold Cadd. simpl. f_equal; ring. Qed.

Lemma Cadd_C0_l (z : C) : Cadd C0 z = z.
Proof. destruct z. unfold Cadd, C0. simpl. f_equal; ring. Qed.

Lemma Csum_app (u v : list C) : Csum (u ++ v) = Cadd (Csum u) (Csum v).
Proof.
  induction u as [| z u IH]; simpl.
  - now rewrite Cadd_C0_l.
  - fold (Csum (u ++ v)) (Csum u). now rewrite IH, Cadd_assoc.
Qed.

Lemma Csum_concat (M : list (list C)) :
  Csum (concat M) = Csum (map Csum M).
Proof.
  induction M as [| row M IH]; auto.
  cbn [concat map]. rewrite Csum_app, IH. reflexivity.
Qed.

Lemma Csum_mk_matrix (n m : nat) (f : nat -> nat -> C) :
  Csum (concat (mk_matrix n m f))
  = Csum (map (fun r => Csum (map (fun c => f r c) (seq 0 m))) (seq 0 n)).
Proof.
  rewrite Csum_concat. unfold mk_matrix. now rewrite map_map.
Qed.

Lemma list_as_map_nth {A : Type} (l : list A) (d : A) :
  l = map (fun i => nth i l d) (seq 0 (length l)).
Proof.
  induction l as [| a l IH]; auto.
  cbn [length seq map nth]. f_equal.
  rewrite <- seq_shift, map_map. exact IH.
Qed.

Lemma map_over_indices {A B : Type} (g : A -> B) (l : list A) (d : A) :
  map g l = map (fun i => g (nth i l d)) (seq 0 (length l)).
Proof.
  rewrite (list_as_map_nth l d) at 1. now rewrite map_map.
Qed.

Lemma kron_matrix (a : list C) :
  np_reshape (length a) (length a) (np_kron a a)
  = Ok (mk_matrix (length a) (length a)
          (fun r c => Cmul (nth r a C0) (nth c a C0))).
Proof.
  unfold np_kron.
  rewrite (np_reshape_flat_map (fun x => map (Cmul x) a) (length a) a)
    by (intros; apply length_map).
  f_equal. unfold mk_matrix.
  rewrite (map_over_indices (fun x => map (Cmul x) a) a C0).
  apply map_ext. intros r.
  apply (map_over_indices (Cmul (nth r a C0)) a C0).
Qed.

(** *** The index-difference matrix *)

Lemma nth_diag_vector (h : R -> R) (x : R) (n j : nat) :
  (j < n)%nat -> nth j (map h (repeat x n)) 0 = h x.
Proof.
  revert j. induction n as [| n IH]; intros [| j] H; simpl; try lia; auto.
  apply IH. lia.
Qed.

Lemma diff_step_matrix (N i : nat) (f : nat -> nat -> R) :
  (1 <= i)%nat -> (i < N)%nat ->
  diff_step N (mk_matrix N N f) i
  = mk_matrix N N (fun r c =>
      f r c
      + (if (Z.of_nat c - Z.of_nat r =? Z.of_nat i)%Z then - INR i else 0)
      + (if (Z.of_nat c - Z.of_nat r =? - Z.of_nat i)%Z then INR i else 0)).
Proof.
  intros H1 HN. unfold diff_step, np_diag.
  rewrite !length_map, repeat_length.
  replace (N - i + Z.abs_nat (Z.of_nat i))%nat with N by lia.
  replace (N - i + Z.abs_nat (- Z.of_nat i))%nat with N by lia.
  unfold madd. rewrite !(map2_mk_matrix Rplus).
  apply mk_matrix_ext. intros r c Hr Hc. f_equal; [f_equal |].
  - destruct (Z.eqb_spec (Z.of_nat c - Z.of_nat r) (Z.of_nat i)); auto.
    rewrite map_map, (nth_diag_vector (fun o => - (o * INR i)))
      by lia.
    now rewrite Rmult_1_l.
  - destruct (Z.eqb_spec (Z.of_nat c - Z.of_nat r) (- Z.of_nat i)); auto.
    rewrite (nth_diag_vector (fun o => o * INR i)) by lia.
    now rewrite Rmult_1_l.
Qed.

Lemma diff_loop_matrix (N k : nat) :
  (k < N)%nat ->
  fold_left (diff_step N) (seq 1 k) (mk_matrix N N (fun _ _ => 0))
  = mk_matrix N N (fun r c =>
      if (Z.abs (Z.of_nat r - Z.of_nat c) <=? Z.of_nat k)%Z
      then IZR (Z.of_nat r - Z.of_nat c) else 0).
Proof.
  induction k as [| k IH]; intros Hk.
  - cbn [seq fold_left]. apply mk_matrix_ext. intros r c _ _.
    destruct (Z.leb_spec (Z.abs (Z.of_nat r - Z.of_nat c)) (Z.of_nat 0)); auto.
    replace (Z.of_nat r - Z.of_nat c)%Z with 0%Z by lia. reflexivity.
  - rewrite seq_S, fold_left_app, IH by lia. cbn [fold_left Nat.add].
    rewrite diff_step_matrix by lia.
    apply mk_matrix_ext. intros r c _ _.
    rewrite (INR_IZR_INZ (S k)).
    destruct (Z.leb_spec (Z.abs (Z.of_nat r - Z.of_nat c)) (Z.of_nat k));
      destruct (Z.leb_spec (Z.abs (Z.of_nat r - Z.of_nat c)) (Z.of_nat (S k)));
      destruct (Z.eqb_spec (Z.of_nat c - Z.of_nat r) (Z.of_nat (S k)));
      destruct (Z.eqb_spec (Z.of_nat c - Z.of_nat r) (- Z.of_nat (S k)));
      try lia; try lra.
    + replace (Z.of_nat r - Z.of_nat c)%Z with (- Z.of_nat (S k))%Z by lia.
      rewrite opp_IZR. lra.
    + replace (Z.of_nat r - Z.of_nat c)%Z with (Z.of_nat (S k)) by lia.
      lra.
Qed.

Lemma diff_matrix_entries (N : nat) :
  fold_left (diff_step N) (seq 1 (N - 1)) (mk_matrix N N (fun _ _ => 0))
  = mk_matrix N N (fun r c => INR r - INR c).
Proof.
  destruct N as [| N]; [reflexivity |].
  rewrite diff_loop_matrix by lia.
  apply mk_matrix_ext. intros r c Hr Hc.
  destruct (Z.leb_spec (Z.abs (Z.of_nat r - Z.of_nat c))
                       (Z.of_nat (S N - 1))); [| lia].
  now rewrite minus_IZR, <- !INR_IZR_INZ.
Qed.

Lemma linear_directivity_closed (a : list C) (d : R) :
  linear_directivity a d
  = Ok (np_cdivide (RtoC (Rsum (map Cmod a) ^ 2)) (coupling_sum a d)).
Proof.
  unfold linear_directivity. rewrite kron_matrix. cbn [bind].
  rewrite diff_matrix_entries, !map_mk_matrix, map2_mk_matrix.
  rewrite Csum_mk_matrix. reflexivity.
Qed.

Lemma np_sinc_0 : np_sinc 0 = 1.
Proof.
  unfold np_sinc. destruct (Req_dec_T 0 0) as [_ | H]; [reflexivity | easy].
Qed.

Lemma np_sinc_nonzero (x : R) :
  x <> 0 -> np_sinc x = sin (PI * x) / (PI * x).
Proof.
  intros H. unfold np_sinc. destruct (Req_dec_T x 0); [easy | reflexivity].
Qed.

Lemma np_sinc_1 : np_sinc 1 = 0.
Proof.
  rewrite np_sinc_nonzero by lra. rewrite Rmult_1_r, sin_PI.
  unfold Rdiv. ring.
Qed.

Lemma np_sinc_m1 : np_sinc (-1) = 0.
Proof.
  rewrite np_sinc_nonzero by lra.
  replace (PI * -1) with (- PI) by ring. rewrite sin_neg, sin_PI.
  unfold Rdiv. ring.
Qed.

Lemma np_cdivide_real (x y : R) :
  y <> 0 -> np_cdivide (RtoC x) (RtoC y) = Finite (RtoC (x / y)).
Proof.
  intros H. unfold np_cdivide.
  destruct (Ceq_dec (RtoC y) C0) as [E | _].
  - inversion E. contradiction.
  - unfold Cmul, Cinv, RtoC. cbn [fst snd]. do 2 f_equal; field; lra.
Qed.

Lemma np_cdivide_zero (x : C) : np_cdivide x C0 = NonFinite.
Proof.
  unfold np_cdivide. destruct (Ceq_dec C0 C0) as [_ | H]; [reflexivity | easy].
Qed.

Lemma Cmod_real (x : R) : Cmod (RtoC x) = Rabs x.
Proof.
  unfold Cmod, RtoC. cbn [fst snd].
  replace (x * x + 0 * 0) with (x²) by (unfold Rsqr; ring).
  apply sqrt_Rsqr_abs.
Qed.


Lemma real_weights_coupling (w : list C) (d : R) :
  Forall (fun z => snd z = 0) w -> snd (coupling_sum w d) = 0.
Proof.
  intros H. unfold coupling_sum.
  assert (Hnth : forall i, snd (nth i w C0) = 0).
  { intros i. destruct (nth_in_or_default i w C0) as [Hin | E].
    - rewrite Forall_forall in H. now apply H.
    - now rewrite E. }
  assert (Hsum : forall (A : Type) (g : A -> C) (l : list A),
             (forall a, snd (g a) = 0) -> snd (Csum (map g l)) = 0).
  { intros A g l Hg. induction l as [| a l IH]; [reflexivity |].
    cbn [map Csum fold_right]. fold (Csum (map g l)).
    unfold Cadd. cbn [snd]. rewrite Hg, IH. ring. }
  apply Hsum. intros i. apply Hsum. intros j.
  unfold Cmul, RtoC. cbn [fst snd]. rewrite !Hnth. ring.
Qed.

(** Real weights give a real directivity, or none. *)
Lemma linear_directivity_real_weights (w : list C) (d : R) :
  Forall (fun z => snd z = 0) w ->
  linear_directivity w d = Ok NonFinite
  \/ exists D, linear_directivity w d = Ok (Finite (RtoC D)).
Proof.
  intros H. rewrite linear_directivity_closed.
  pose proof (real_weights_coupling w d H) as Him.
  destruct (coupling_sum w d) as [s t]. cbn [snd] in Him. subst t.
  change (s, 0) with (RtoC s).
  destruct (Req_dec_T s 0) as [-> | Hs].
  - left. f_equal. apply np_cdivide_zero.
  - right. eexists. now rewrite np_cdivide_real.
Qed.




Lemma linear_directivity_one_weight (w : C) (d : R) :
  linear_directivity [w] d
  = Ok (np_cdivide (RtoC (Cmod w ^ 2)) (Cmul w w)).
Proof.
  rewrite linear_directivity_closed. do 2 f_equal.
  - cbn [map Rsum fold_right]. f_equal. ring.
  - unfold coupling_sum. cbn [length seq map nth Csum fold_right INR].
    replace (2 * d * (0 - 0)) with 0 by ring. rewrite np_sinc_0.
    destruct w as [x y].
    unfold Cadd, Cmul, RtoC, C0. cbn [fst snd]. f_equal; ring.
Qed.

(** C7, as the code has it: for a single non-zero real weight and every
    spacing, [linear_directivity] returns exactly 1. *)
Theorem linear_directivity_single (x d : R) :
  x <> 0 -> linear_directivity [RtoC x] d = Ok (Finite (RtoC 1)).
Proof.
  intros H. rewrite linear_directivity_one_weight.
  replace (Cmul (RtoC x) (RtoC x)) with (RtoC (x * x))
    by (unfold Cmul, RtoC; cbn [fst snd]; f_equal; ring).
  rewrite np_cdivide_real by nra.
  rewrite Cmod_real. do 3 f_equal.
  replace (Rabs x ^ 2) with (x * x).
  - field. lra.
  - rewrite <- Rsqr_pow2, <- Rsqr_abs. reflexivity.
Qed.

Lemma linear_directivity_single_witness :
  linear_directivity [RtoC 1] (1 / 2) = Ok (Finite (RtoC 1)).
Proof.
  apply (linear_directivity_single 1 (1 / 2)). lra.
Defined.

(** C7 fails on a single weight that is zero or not real: the weight 0
    ends in the division 0/0, the weight i gives -1. *)
Lemma linear_directivity_single_degenerate :
  linear_directivity [RtoC 0] 1 = Ok NonFinite
  /\ linear_directivity [(0, 1)] 1 = Ok (Finite (RtoC (-1))).
Proof.
  split.
  - rewrite linear_directivity_one_weight.
    replace (Cmul (RtoC 0) (RtoC 0)) with C0
      by (unfold Cmul, RtoC, C0; cbn [fst snd]; f_equal; ring).
    now rewrite np_cdivide_zero.
  - rewrite linear_directivity_one_weight.
    replace (Cmul (0, 1) (0, 1)) with (RtoC (-1))
      by (unfold Cmul, RtoC; cbn [fst snd]; f_equal; ring).
    replace (Cmod (0, 1)) with 1.
    + rewrite np_cdivide_real by lra. do 3 f_equal. field.
    + unfold Cmod. cbn [fst snd].
      replace (0 * 0 + 1 * 1) with 1 by ring. now rewrite sqrt_1.
Qed.

(** ** Worked inputs *)

Example upa_positions_2x2 :
  upa_positions 2 2 1 3 = Ok [(0, 0); (1, 0); (0, 3); (1, 3)].
Proof.
  rewrite upa_positions_lattice by lia.
  change (Z.to_nat 2) with 2%nat.
  unfold rectangular_lattice. cbn [seq flat_map map app INR].
  rewrite !Rmult_0_l, !Rmult_1_l. reflexivity.
Qed.

Example np_round_5_over_sqrt3 : np_round (IZR 5 / sqrt 3) = 3%Z.
Proof.
  assert (Hs : 17 / 10 < sqrt 3 < 18 / 10).
  { split.
    - apply Rle_lt_trans with (sqrt (17 / 10 * (17 / 10))).
      + rewrite sqrt_square; lra.
      + apply sqrt_lt_1_alt. lra.
    - apply Rlt_le_trans with (sqrt (18 / 10 * (18 / 10))).
      + apply sqrt_lt_1_alt. lra.
      + rewrite sqrt_square; lra. }
  set (x := IZR 5 / sqrt 3).
  assert (Hx : x * sqrt 3 = 5) by (unfold x; field; lra).
  assert (Hb : 27 / 10 < x < 3) by (split; nra).
  unfold np_round. fold x.
  rewrite <- (Int_part_spec x 2) by (split; simpl; lra).
  destruct (Rlt_dec (x - IZR 2) (1 / 2)) as [H | H]; [simpl in H; lra |].
  destruct (Rlt_dec (1 / 2) (x - IZR 2)) as [H' | H']; [reflexivity |].
  simpl in H'. lra.
Qed.

Example hex_positions_5 :
  exists p, hex_positions 5 (9 / 10) = Ok p /\ length p = 23%nat.
Proof.
  unfold hex_positions. rewrite np_round_5_over_sqrt3.
  rewrite !upa_positions_lattice by lia. cbn [bind].
  eexists. split; [reflexivity |].
  rewrite length_app, length_map, !length_rectangular_lattice. reflexivity.
Qed.

Example linear_directivity_pair :
  linear_directivity [RtoC 1; RtoC 1] (1 / 2) = Ok (Finite (RtoC 2)).
Proof.
  rewrite linear_directivity_closed.
  replace (coupling_sum [RtoC 1; RtoC 1] (1 / 2)) with (RtoC 2).
  - cbn [map Rsum fold_right]. rewrite !Cmod_real, Rabs_R1.
    rewrite np_cdivide_real by lra. do 3 f_equal. field.
  - unfold coupling_sum. cbn [length seq map nth Csum fold_right INR].
    replace (2 * (1 / 2) * (0 - 0)) with 0 by field.
    replace (2 * (1 / 2) * (0 - 1)) with (-1) by field.
    replace (2 * (1 / 2) * (1 - 0)) with 1 by field.
    replace (2 * (1 / 2) * (1 - 1)) with 0 by field.
    rewrite np_sinc_0, np_sinc_1, np_sinc_m1.
    unfold Cadd, Cmul, RtoC, C0. cbn [fst snd]. f_equal; ring.
Qed.

Example array_manifold_broadside (positions : list (R * R)) :
  array_manifold [0] [0] positions = Ok (map (fun _ => [C1]) positions).
Proof.
  unfold array_manifold. rewrite np_stack_ok by reflexivity. cbn [bind].
  rewrite exp_matmul_scaled. f_equal. apply map_ext. intros p.
  cbn [fst snd combine map]. unfold Cis, C1.
  replace (2 * PI * (fst p * 0 + snd p * 0)) with 0 by ring.
  now rewrite cos_0, sin_0.
Qed.

(** * Further properties *)

(** ** Complex arithmetic, continued *)

Lemma Cis_add (a b : R) : Cis (a + b) = Cmul (Cis a) (Cis b).
Proof.
  unfold Cis, Cmul. cbn [fst snd]. rewrite cos_plus, sin_plus.
  f_equal; ring.
Qed.

Lemma Cconj_Cis (t : R) : Cconj (Cis t) = Cis (- t).
Proof.
  unfold Cconj, Cis. cbn [fst snd]. now rewrite cos_neg, sin_neg.
Qed.

Lemma Cmod_Cmul (z w : C) : Cmod (Cmul z w) = Cmod z * Cmod w.
Proof.
  destruct z as [a b], w as [c d]. unfold Cmod, Cmul. cbn [fst snd].
  rewrite <- sqrt_mult by nra. f_equal. ring.
Qed.

Lemma Cmul_C0_r (z : C) : Cmul z C0 = C0.
Proof. unfold Cmul, C0. cbn [fst snd]. f_equal; ring. Qed.

Lemma Cmul_Csum {A : Type} (c : C) (f : A -> C) (l : list A) :
  Csum (map (fun x => Cmul c (f x)) l) = Cmul c (Csum (map f l)).
Proof.
  induction l as [| a l IH].
  - simpl. now rewrite Cmul_C0_r.
  - cbn [map Csum fold_right].
    fold (Csum (map (fun x => Cmul c (f x)) l)) (Csum (map f l)).
    rewrite IH. unfold Cmul, Cadd. cbn [fst snd]. f_equal; ring.
Qed.

Lemma Cconj_Csum {A : Type} (f : A -> C) (l : list A) :
  Csum (map (fun x => Cconj (f x)) l) = Cconj (Csum (map f l)).
Proof.
  induction l as [| a l IH].
  - unfold Cconj, Csum, C0. cbn [map fold_right fst snd].
    apply f_equal. ring.
  - cbn [map Csum fold_right].
    fold (Csum (map (fun x => Cconj (f x)) l)) (Csum (map f l)).
    rewrite IH. unfold Cconj, Cadd. cbn [fst snd]. f_equal. ring.
Qed.

Lemma Csum_ext {A : Type} (f g : A -> C) (l : list A) :
  (forall a, In a l -> f a = g a) -> Csum (map f l) = Csum (map g l).
Proof.
  intros H. f_equal. apply map_ext_in. exact H.
Qed.

(** ** Array factor: errors, symmetries and composition *)

Lemma np_stack_mismatch {A : Type} (u v : list A) :
  length u <> length v -> np_stack u v = Raise ValueError.
Proof.
  intros H. unfold np_stack.
  destruct (Nat.eqb_spec (length u) (length v)); [contradiction | reflexivity].
Qed.

Lemma array_factor_lm_mismatch (l m : list R) (l0 m0 : R)
  (positions : list (R * R)) :
  length l <> length m ->
  array_factor_lm l m l0 m0 positions = Raise ValueError.
Proof.
  intros H. unfold array_factor_lm. now rewrite np_stack_mismatch.
Qed.

(** X1: direction-cosine arrays of different lengths are refused by
    [np.stack]: [array_factor_lm] and [array_manifold] raise ValueError,
    whatever the positions and the steering direction. *)
Theorem direction_cosines_length_mismatch (l m : list R) (l0 m0 : R)
  (positions : list (R * R)) :
  length l <> length m ->
  array_factor_lm l m l0 m0 positions = Raise ValueError
  /\ array_manifold l m positions = Raise ValueError.
Proof.
  intros H. split; [now apply array_factor_lm_mismatch |].
  unfold array_manifold. now rewrite np_stack_mismatch.
Qed.

Lemma direction_cosines_length_mismatch_witness :
  array_factor_lm [0; 1] [0] 0 0 [(1, 2)] = Raise ValueError
  /\ array_manifold [0; 1] [0] [(1, 2)] = Raise ValueError.
Proof.
  apply (direction_cosines_length_mismatch [0; 1] [0] 0 0 [(1, 2)]).
  simpl. lia.
Defined.

(** X2: the array factor depends on the source and steering directions
    through their difference only: adding one offset (a, b) to every source
    direction cosine and to the steering pair leaves the output of
    [array_factor_lm] unchanged, errors included. *)
Theorem array_factor_lm_common_offset (l m : list R) (l0 m0 a b : R)
  (positions : list (R * R)) :
  array_factor_lm (map (fun x => x + a) l) (map (fun y => y + b) m)
                  (l0 + a) (m0 + b) positions
  = array_factor_lm l m l0 m0 positions.
Proof.
  destruct (Nat.eq_dec (length l) (length m)) as [H | H].
  - rewrite !array_factor_lm_closed by (rewrite ?length_map; exact H).
    f_equal. rewrite !map2_combine, combine_map_l_r, map_map.
    apply map_ext. intros [x y]. cbv beta. cbn [fst snd]. f_equal; ring.
  - rewrite !array_factor_lm_mismatch by (rewrite ?length_map; exact H).
    reflexivity.
Qed.

Lemma coherent_sum_translate (positions : list (R * R)) (cx cy dl dm : R) :
  coherent_sum (map (fun p => (fst p + cx, snd p + cy)) positions) dl dm
  = Cmul (Cis (2 * PI * (cx * dl + cy * dm))) (coherent_sum positions dl dm).
Proof.
  unfold coherent_sum. rewrite map_map, <- Cmul_Csum.
  apply Csum_ext. intros p _. cbn [fst snd]. rewrite <- Cis_add.
  f_equal. ring.
Qed.

(** X3: moving the whole array by a vector (cx, cy) multiplies each output
    entry of [array_factor_lm] by a unit phase factor, so every magnitude
    is unchanged. *)
Theorem array_factor_lm_translation (l m : list R) (l0 m0 cx cy : R)
  (positions : list (R * R)) :
  length l = length m ->
  exists a a',
    array_factor_lm l m l0 m0 positions = Ok a
    /\ array_factor_lm l m l0 m0
         (map (fun p => (fst p + cx, snd p + cy)) positions) = Ok a'
    /\ map Cmod a' = map Cmod a.
Proof.
  intros H. rewrite !array_factor_lm_closed by assumption.
  do 2 eexists. split; [reflexivity |]. split; [reflexivity |].
  rewrite !map2_combine, !map_map. apply map_ext. intros s.
  rewrite coherent_sum_translate, Cmod_Cmul, Cmod_Cis. ring.
Qed.

Lemma array_factor_lm_translation_witness :
  exists a a',
    array_factor_lm [0; 1] [1; 0] 0 0 [(1, 2); (3, 4)] = Ok a
    /\ array_factor_lm [0; 1] [1; 0] 0 0
         (map (fun p => (fst p + 5, snd p + 6)) [(1, 2); (3, 4)]) = Ok a'
    /\ map Cmod a' = map Cmod a.
Proof.
  apply (array_factor_lm_translation [0; 1] [1; 0] 0 0 5 6
           [(1, 2); (3, 4)]).
  reflexivity.
Defined.

Lemma coherent_sum_opp (positions : list (R * R)) (dl dm : R) :
  coherent_sum positions (- dl) (- dm) = Cconj (coherent_sum positions dl dm).
Proof.
  unfold coherent_sum. rewrite <- Cconj_Csum.
  apply Csum_ext. intros p _. rewrite Cconj_Cis. f_equal. ring.
Qed.

(** X4: exchanging the source direction and the steering direction
    conjugates the array factor: [array_factor_lm([l0],[m0], l, m, p)] is
    the complex conjugate of [array_factor_lm([l],[m], l0, m0, p)]. *)
Theorem array_factor_lm_exchange (l m l0 m0 : R) (positions : list (R * R)) :
  exists z,
    array_factor_lm [l] [m] l0 m0 positions = Ok [z]
    /\ array_factor_lm [l0] [m0] l m positions = Ok [Cconj z].
Proof.
  exists (coherent_sum positions (l - l0) (m - m0)).
  rewrite !array_factor_lm_closed by reflexivity. cbn [map2].
  split; [reflexivity |].
  rewrite <- coherent_sum_opp. do 3 f_equal; ring.
Qed.

Lemma nth_phase_row (q : R * R) (l m : list R) (p : nat) :
  length l = length m -> (p < length l)%nat ->
  nth p (map (fun s => Cis (2 * PI * (fst q * fst s + snd q * snd s)))
             (combine l m)) C0
  = Cis (2 * PI * (fst q * nth p l 0 + snd q * nth p m 0)).
Proof.
  intros H Hp.
  rewrite (nth_indep _ C0 (Cis (2 * PI * (fst q * fst (0, 0)
                                          + snd q * snd (0, 0)))))
    by (rewrite length_map, length_combine, <- H, Nat.min_id; exact Hp).
  rewrite (map_nth (fun s => Cis (2 * PI * (fst q * fst s + snd q * snd s)))).
  now rewrite combine_nth by assumption.
Qed.

(** X5: the array factor is the steering column of the manifold, conjugated,
    against the source manifold: with [A = array_manifold(l, m, p)] and
    [A0 = array_manifold([l0], [m0], p)], entry [k] of
    [array_factor_lm(l, m, l0, m0, p)] is the sum over the elements [j] of
    [conj(A0[j,0]) * A[j,k]]. *)
Theorem array_factor_lm_from_manifold (l m : list R) (l0 m0 : R)
  (positions : list (R * R)) :
  length l = length m ->
  exists A A0 a,
    array_manifold l m positions = Ok A
    /\ array_manifold [l0] [m0] positions = Ok A0
    /\ array_factor_lm l m l0 m0 positions = Ok a
    /\ forall k, (k < length l)%nat ->
         nth k a C0
         = Csum (map2 (fun row0 row =>
                         Cmul (Cconj (nth 0 row0 C0)) (nth k row C0))
                      A0 A).
Proof.
  intros H. unfold array_manifold.
  rewrite (np_stack_ok l m H), (np_stack_ok [l0] [m0]) by reflexivity.
  cbn [bind]. rewrite !exp_matmul_scaled. cbn [fst snd combine map].
  rewrite array_factor_lm_closed by assumption.
  do 3 eexists. repeat (split; [reflexivity |]).
  intros k Hk.
  rewrite (nth_map2 _ l m k 0 0 C0) by (rewrite <- ?H; exact Hk).
  rewrite (map2_map_map
             (fun row0 row => Cmul (Cconj (nth 0 row0 C0)) (nth k row C0))).
  unfold coherent_sum. apply Csum_ext. intros q _.
  rewrite nth_phase_row by assumption. cbn [nth].
  rewrite Cconj_Cis, <- Cis_add. f_equal. ring.
Qed.

Lemma array_factor_lm_from_manifold_witness :
  exists A A0 a,
    array_manifold [0; 1] [1; 0] [(1, 2); (3, 4)] = Ok A
    /\ array_manifold [5] [6] [(1, 2); (3, 4)] = Ok A0
    /\ array_factor_lm [0; 1] [1; 0] 5 6 [(1, 2); (3, 4)] = Ok a
    /\ forall k, (k < length [0; 1])%nat ->
         nth k a C0
         = Csum (map2 (fun row0 row =>
                         Cmul (Cconj (nth 0 row0 C0)) (nth k row C0))
                      A0 A).
Proof.
  apply (array_factor_lm_from_manifold [0; 1] [1; 0] 5 6 [(1, 2); (3, 4)]).
  reflexivity.
Defined.

Lemma steered_row_bound (pix2vec : Z -> Z -> R * R * R) (nside : Z)
  (positions : list (R * R)) (source_pixels : list Z) (scan_pixel : Z) :
  Forall (fun z => Cmod z <= INR (length positions))
         (steered_row pix2vec nside positions source_pixels scan_pixel).
Proof.
  unfold steered_row. apply Forall_forall. intros z Hz.
  apply in_map_iff in Hz. destruct Hz as (p & <- & _).
  apply coherent_sum_bound.
Qed.

(** X7: every entry that the pixel-grid variants return has magnitude at
    most J, the number of element positions: the entries of what
    [array_factor_hp] returns and of every row of what
    [array_factor_hpmatrix] returns, whatever [hp.pix2vec] gives for the
    pixels. *)
Theorem array_factor_hp_bounded (pix2vec : Z -> Z -> R * R * R)
  (nside : Z) (source_pixels scan_pixels : list Z) (scan_pixel : Z)
  (positions : list (R * R)) :
  (forall a,
      array_factor_hp pix2vec nside source_pixels scan_pixel positions = Ok a ->
      length a = length source_pixels
      /\ Forall (fun z => Cmod z <= INR (length positions)) a)
  /\ (forall A,
        array_factor_hpmatrix pix2vec nside source_pixels scan_pixels positions
        = Ok A ->
        length A = length scan_pixels
        /\ Forall (fun row =>
                     length row = length source_pixels
                     /\ Forall (fun z => Cmod z <= INR (length positions))
                               row) A).
Proof.
  split.
  - intros a Ha. rewrite array_factor_hp_closed in Ha. injection Ha as <-.
    split; [apply length_map | apply steered_row_bound].
  - intros A HA. rewrite array_factor_hpmatrix_closed in HA.
    injection HA as <-. split; [apply length_map |].
    apply Forall_forall. intros row Hrow.
    apply in_map_iff in Hrow. destruct Hrow as (s & <- & _).
    split; [apply length_map | apply steered_row_bound].
Qed.

(** X8: when the scan pixels are the source pixels, the diagonal of the
    matrix of [array_factor_hpmatrix] holds the in-phase value: entry (i,i)
    is the real number J. *)
Theorem array_factor_hpmatrix_diagonal (pix2vec : Z -> Z -> R * R * R)
  (nside : Z) (pixels : list Z) (positions : list (R * R)) :
  exists A,
    array_factor_hpmatrix pix2vec nside pixels pixels positions = Ok A
    /\ forall i, (i < length pixels)%nat ->
         nth i (nth i A []) C0 = (INR (length positions), 0).
Proof.
  rewrite array_factor_hpmatrix_closed. eexists. split; [reflexivity |].
  intros i Hi.
  rewrite (nth_indep _ [] (steered_row pix2vec nside positions pixels 0%Z))
    by now rewrite length_map.
  rewrite (map_nth (steered_row pix2vec nside positions pixels)).
  unfold steered_row.
  rewrite (nth_indep _ C0
             (coherent_sum positions
                (pixel_l pix2vec nside 0%Z
                 - pixel_l pix2vec nside (nth i pixels 0%Z))
                (pixel_m pix2vec nside 0%Z
                 - pixel_m pix2vec nside (nth i pixels 0%Z))))
    by now rewrite length_map.
  rewrite (map_nth (fun p =>
             coherent_sum positions
               (pixel_l pix2vec nside p
                - pixel_l pix2vec nside (nth i pixels 0%Z))
               (pixel_m pix2vec nside p
                - pixel_m pix2vec nside (nth i pixels 0%Z)))).
  rewrite !Rminus_diag. apply coherent_sum_zero.
Qed.

(** ** Periodicity *)

Lemma Cis_period (t : R) (k : Z) : Cis (t + 2 * PI * IZR k) = Cis t.
Proof.
  assert (Hnat : forall (x : R) (n : nat), Cis (x + 2 * INR n * PI) = Cis x).
  { intros x n. unfold Cis. now rewrite cos_period, sin_period. }
  destruct (Z_le_gt_dec 0 k) as [Hk | Hk].
  - rewrite <- (Z2Nat.id k Hk), <- INR_IZR_INZ.
    rewrite <- (Hnat t (Z.to_nat k)). f_equal. ring.
  - rewrite <- (Hnat (t + 2 * PI * IZR k) (Z.to_nat (- k))).
    f_equal. rewrite INR_IZR_INZ, Z2Nat.id by lia.
    rewrite opp_IZR. ring.
Qed.

Lemma coherent_sum_period (positions : list (R * R)) (a b dl dm : R) :
  Forall (fun p => exists k : Z, fst p * a + snd p * b = IZR k) positions ->
  coherent_sum positions (dl + a) (dm + b) = coherent_sum positions dl dm.
Proof.
  intros H. unfold coherent_sum. apply Csum_ext. intros p Hp.
  rewrite Forall_forall in H. destruct (H p Hp) as [k Hk].
  rewrite <- (Cis_period (2 * PI * (fst p * dl + snd p * dm)) k).
  f_equal. rewrite <- Hk. ring.
Qed.

Lemma rectangular_lattice_multiples (nx ny : nat) (dx dy : R) :
  Forall (fun p => exists i j : nat, p = (INR i * dx, INR j * dy))
         (rectangular_lattice nx ny dx dy).
Proof.
  unfold rectangular_lattice. apply Forall_forall. intros p Hp.
  apply in_flat_map in Hp. destruct Hp as (j & _ & Hp).
  apply in_map_iff in Hp. destruct Hp as (i & <- & _).
  now exists i, j.
Qed.

(** X9: grating lobes of a rectangular array.  On the positions that
    [upa_positions(Nx, Ny, dx, dy)] returns, [array_factor_lm] is periodic
    in the direction cosines, with period 1/dx in l and 1/dy in m: moving
    every source l by i/dx and every source m by j/dy, for integers i and
    j, returns the same output. *)
Theorem upa_array_factor_periodic (Nx Ny : Z) (dx dy : R) :
  (0 <= Nx)%Z -> (0 <= Ny)%Z -> dx <> 0 -> dy <> 0 ->
  exists p,
    upa_positions Nx Ny dx dy = Ok p
    /\ forall (l m : list R) (l0 m0 : R) (i j : Z),
         array_factor_lm (map (fun x => x + IZR i / dx) l)
                         (map (fun y => y + IZR j / dy) m) l0 m0 p
         = array_factor_lm l m l0 m0 p.
Proof.
  intros Hx Hy Hdx Hdy. rewrite upa_positions_lattice by assumption.
  eexists. split; [reflexivity |]. intros l m l0 m0 i j.
  destruct (Nat.eq_dec (length l) (length m)) as [H | H].
  - rewrite !array_factor_lm_closed by (rewrite ?length_map; exact H).
    f_equal. rewrite !map2_combine, combine_map_l_r, map_map.
    apply map_ext. intros [x y]. cbv beta. cbn [fst snd].
    replace (x + IZR i / dx - l0) with (x - l0 + IZR i / dx) by ring.
    replace (y + IZR j / dy - m0) with (y - m0 + IZR j / dy) by ring.
    apply coherent_sum_period.
    eapply Forall_impl; [| apply rectangular_lattice_multiples].
    intros q (a & b & ->). cbn [fst snd].
    exists (Z.of_nat a * i + Z.of_nat b * j)%Z.
    rewrite plus_IZR, !mult_IZR, <- !INR_IZR_INZ. field. split; assumption.
  - rewrite !array_factor_lm_mismatch by (rewrite ?length_map; exact H).
    reflexivity.
Qed.

Lemma upa_array_factor_periodic_witness :
  exists p,
    upa_positions 3 2 (1 / 2) (1 / 2) = Ok p
    /\ forall (l m : list R) (l0 m0 : R) (i j : Z),
         array_factor_lm (map (fun x => x + IZR i / (1 / 2)) l)
                         (map (fun y => y + IZR j / (1 / 2)) m) l0 m0 p
         = array_factor_lm l m l0 m0 p.
Proof.
  apply (upa_array_factor_periodic 3 2 (1 / 2) (1 / 2)); try lia; lra.
Defined.

Lemma array_factor_tp_mismatch (theta phi : list R) (theta0 phi0 : R)
  (positions : list (R * R)) :
  length theta <> length phi ->
  array_factor_tp theta phi theta0 phi0 positions = Raise ValueError.
Proof.
  intros H. unfold array_factor_tp, ang2vec.
  destruct (Nat.eqb_spec (length theta) (length phi));
    [contradiction | reflexivity].
Qed.

Lemma map2_ext {A B D : Type} (f g : A -> B -> D) (u : list A) (v : list B) :
  (forall a b, f a b = g a b) -> map2 f u v = map2 g u v.
Proof.
  intros H. revert v.
  induction u as [| a u IH]; intros [| b v]; simpl; auto.
  now rewrite H, IH.
Qed.

(** X10: the angular variant wraps in azimuth and forgets the azimuth of a
    zenith steering direction: adding 2*pi to every source phi, or to phi0,
    leaves the output of [array_factor_tp] unchanged, and for theta0 = 0
    the output does not depend on phi0. *)
Theorem array_factor_tp_azimuth (theta phi : list R) (theta0 phi0 : R)
  (positions : list (R * R)) :
  array_factor_tp theta (map (fun p => p + 2 * PI) phi) theta0 phi0 positions
  = array_factor_tp theta phi theta0 phi0 positions
  /\ array_factor_tp theta phi theta0 (phi0 + 2 * PI) positions
     = array_factor_tp theta phi theta0 phi0 positions
  /\ array_factor_tp theta phi 0 phi0 positions
     = array_factor_tp theta phi 0 0 positions.
Proof.
  assert (Hc : forall x, cos (x + 2 * PI) = cos x).
  { intros x. rewrite cos_plus, cos_2PI, sin_2PI. ring. }
  assert (Hs : forall x, sin (x + 2 * PI) = sin x).
  { intros x. rewrite sin_plus, cos_2PI, sin_2PI. ring. }
  destruct (Nat.eq_dec (length theta) (length phi)) as [H | H].
  - rewrite !array_factor_tp_as_lm by (rewrite ?length_map; exact H).
    repeat split.
    + rewrite !map2_map_r.
      rewrite (map2_ext (fun t b => sin t * cos (b + 2 * PI))
                        (fun t p => sin t * cos p))
        by (intros; now rewrite Hc).
      rewrite (map2_ext (fun t b => sin t * sin (b + 2 * PI))
                        (fun t p => sin t * sin p))
        by (intros; now rewrite Hs).
      reflexivity.
    + now rewrite Hc, Hs.
    + rewrite sin_0, !Rmult_0_l. reflexivity.
  - rewrite !array_factor_tp_mismatch by (rewrite ?length_map; exact H).
    repeat split.
Qed.

(** ** Geometry: edge cases, distinct elements, aperture *)

Lemma rectangular_lattice_empty (nx ny : nat) (dx dy : R) :
  (nx = 0 \/ ny = 0)%nat -> rectangular_lattice nx ny dx dy = [].
Proof.
  intros H. apply length_zero_iff_nil.
  rewrite length_rectangular_lattice. destruct H; subst; lia.
Qed.

(** X11: [upa_positions] at its edges: a count of zero on either axis
    gives an empty position matrix, and a negative count against a positive
    one is refused with ValueError ([np.tile] for a negative Ny, [np.repeat]
    for a negative Nx). *)
Theorem upa_positions_edges (Nx Ny : Z) (dx dy : R) :
  ((0 <= Ny)%Z -> upa_positions 0 Ny dx dy = Ok [])
  /\ ((0 <= Nx)%Z -> upa_positions Nx 0 dx dy = Ok [])
  /\ ((0 < Nx)%Z -> (Ny < 0)%Z ->
      upa_positions Nx Ny dx dy = Raise ValueError)
  /\ ((Nx < 0)%Z -> (0 < Ny)%Z ->
      upa_positions Nx Ny dx dy = Raise ValueError).
Proof.
  repeat split.
  - intros H. rewrite upa_positions_lattice by lia.
    now rewrite rectangular_lattice_empty by (left; reflexivity).
  - intros H. rewrite upa_positions_lattice by lia.
    now rewrite rectangular_lattice_empty by (right; reflexivity).
  - intros Hx Hy. unfold upa_positions, np_tile, np_arange.
    destruct (Z.to_nat Nx) as [| n] eqn:E; [lia |].
    cbn [seq map]. destruct (Z.ltb_spec Ny 0); [reflexivity | lia].
  - intros Hx Hy. unfold upa_positions, np_tile, np_arange, np_repeat.
    replace (Z.to_nat Nx) with 0%nat by lia. cbn [seq map bind].
    destruct (Z.to_nat Ny) as [| n] eqn:E; [lia |]. cbn [seq map].
    destruct (Z.ltb_spec Nx 0); [reflexivity | lia].
Qed.

Lemma in_rectangular_lattice (nx ny : nat) (dx dy : R) (p : R * R) :
  In p (rectangular_lattice nx ny dx dy) ->
  exists i j, (i < nx)%nat /\ (j < ny)%nat /\ p = (INR i * dx, INR j * dy).
Proof.
  unfold rectangular_lattice. intros Hp.
  apply in_flat_map in Hp. destruct Hp as (j & Hj & Hp).
  apply in_map_iff in Hp. destruct Hp as (i & <- & Hi).
  apply in_seq in Hi. apply in_seq in Hj.
  exists i, j. repeat split; lia.
Qed.

Lemma NoDup_rectangular_lattice (nx ny : nat) (dx dy : R) :
  dx <> 0 -> dy <> 0 -> NoDup (rectangular_lattice nx ny dx dy).
Proof.
  intros Hdx Hdy.
  destruct nx as [| nx'];
    [rewrite rectangular_lattice_empty by (left; reflexivity); constructor |].
  set (nx := S nx').
  apply (NoDup_nth _ (0, 0)). rewrite length_rectangular_lattice.
  intros a b Ha Hb E.
  assert (Hdec : forall c, (c < nx * ny)%nat ->
            exists i j, c = (j * nx + i)%nat /\ (i < nx)%nat /\ (j < ny)%nat).
  { intros c Hc. exists (c mod nx)%nat, (c / nx)%nat. split; [| split].
    - rewrite (Nat.div_mod_eq c nx) at 1. lia.
    - apply Nat.mod_upper_bound. unfold nx. lia.
    - apply Nat.Div0.div_lt_upper_bound. lia. }
  destruct (Hdec a Ha) as (ia & ja & -> & Hia & Hja).
  destruct (Hdec b Hb) as (ib & jb & -> & Hib & Hjb).
  rewrite !nth_rectangular_lattice in E by assumption.
  injection E as Ex Ey.
  apply Rmult_eq_reg_r in Ex; [| assumption].
  apply Rmult_eq_reg_r in Ey; [| assumption].
  apply INR_eq in Ex. apply INR_eq in Ey.
  now rewrite Ex, Ey.
Qed.

Lemma NoDup_map_injective {A B : Type} (f : A -> B) (l : list A) :
  (forall x y, f x = f y -> x = y) -> NoDup l -> NoDup (map f l).
Proof.
  intros Hf. induction 1 as [| x l Hx Hl IH]; simpl; constructor; auto.
  rewrite in_map_iff. intros (y & E & Hy). apply Hf in E. now subst.
Qed.

Lemma half_not_integer (i j : nat) : INR i <> INR j + 1 / 2.
Proof.
  intros H.
  assert (E : IZR (2 * Z.of_nat i) = IZR (2 * Z.of_nat j + 1)).
  { rewrite plus_IZR, !mult_IZR, <- !INR_IZR_INZ. lra. }
  apply eq_IZR in E. lia.
Qed.

(** X12: no two elements coincide.  For non-zero spacings the positions of
    [upa_positions] are pairwise distinct, and for a non-zero [dx] so are
    the positions of [hex_positions]: the half-step shift keeps the second
    sublattice off the first. *)
Theorem positions_distinct (Nx Ny : Z) (dx dy : R) :
  ((0 <= Nx)%Z -> (0 <= Ny)%Z -> dx <> 0 -> dy <> 0 ->
   exists p, upa_positions Nx Ny dx dy = Ok p /\ NoDup p)
  /\ ((1 <= Nx)%Z -> dx <> 0 ->
      exists p, hex_positions Nx dx = Ok p /\ NoDup p).
Proof.
  split.
  - intros Hx Hy Hdx Hdy. rewrite upa_positions_lattice by assumption.
    eexists. split; [reflexivity |]. now apply NoDup_rectangular_lattice.
  - intros Hx Hdx.
    pose proof (hex_rows_positive Nx Hx) as HNy.
    assert (Hdy : dx * sqrt 3 <> 0).
    { destruct sqrt3_bounds. apply Rmult_integral_contrapositive_currified;
        [assumption | lra]. }
    unfold hex_positions. rewrite !upa_positions_lattice by lia.
    cbn [bind]. eexists. split; [reflexivity |].
    apply NoDup_app.
    + now apply NoDup_rectangular_lattice.
    + apply NoDup_map_injective;
        [| now apply NoDup_rectangular_lattice].
      intros [x y] [x' y'] E. cbn [fst snd] in E. injection E as Ex Ey.
      f_equal; lra.
    + intros q Hq Hq'.
      apply in_rectangular_lattice in Hq.
      destruct Hq as (i & j & _ & _ & ->).
      apply in_map_iff in Hq'. destruct Hq' as (q' & E & Hq').
      apply in_rectangular_lattice in Hq'.
      destruct Hq' as (i' & j' & _ & _ & ->).
      cbn [fst snd] in E. injection E as Ex _.
      apply (half_not_integer i i').
      apply Rmult_eq_reg_r with dx; [| assumption]. lra.
Qed.

(** X13: the square aperture.  For [Nx >= 1] and [dx > 0] every position
    that [hex_positions] returns lies in the square of side Nx*dx at the
    origin: 0 <= x <= (Nx-1)*dx and 0 <= y <= Nx*dx - dx*sqrt(3)/2. *)
Theorem hex_positions_in_square (Nx : Z) (dx : R) :
  (1 <= Nx)%Z -> 0 < dx ->
  exists p,
    hex_positions Nx dx = Ok p
    /\ Forall (fun q => 0 <= fst q <= (IZR Nx - 1) * dx
                        /\ 0 <= snd q <= IZR Nx * dx - dx * sqrt 3 / 2) p.
Proof.
  intros Hx Hdx.
  pose proof (hex_rows_positive Nx Hx) as HNy.
  pose proof (np_round_nearest (IZR Nx / sqrt 3)) as Hr.
  destruct sqrt3_bounds as [Hs1 Hs2].
  unfold hex_positions. set (Ny := np_round (IZR Nx / sqrt 3)) in *.
  rewrite !upa_positions_lattice by lia. cbn [bind].
  eexists. split; [reflexivity |].
  assert (Htop : IZR Ny * (dx * sqrt 3) <= IZR Nx * dx + dx * sqrt 3 / 2).
  { assert (Hr' : IZR Ny - IZR Nx / sqrt 3 <= 1 / 2)
      by (eapply Rle_trans; [apply Rle_abs | exact Hr]).
    assert (E : IZR Nx * dx = IZR Nx / sqrt 3 * (dx * sqrt 3))
      by (field; lra).
    rewrite E. assert (0 < dx * sqrt 3) by nra. nra. }
  assert (Hnat : forall (n : Z) (k : nat),
            (k < Z.to_nat n)%nat -> 0 <= INR k <= IZR n - 1).
  { intros n k Hk. split; [apply pos_INR |].
    rewrite INR_IZR_INZ, <- minus_IZR. apply IZR_le. lia. }
  apply Forall_app. split; apply Forall_forall; intros q Hq.
  - apply in_rectangular_lattice in Hq.
    destruct Hq as (i & j & Hi & Hj & ->). cbn [fst snd].
    destruct (Hnat Nx i Hi) as [Hi0 Hi1].
    destruct (Hnat Ny j Hj) as [Hj0 Hj1].
    assert (0 < dx * sqrt 3) by nra.
    repeat split; nra.
  - apply in_map_iff in Hq. destruct Hq as (q' & <- & Hq).
    apply in_rectangular_lattice in Hq.
    destruct Hq as (i & j & Hi & Hj & ->). cbn [fst snd].
    destruct (Hnat (Nx - 1)%Z i Hi) as [Hi0 Hi1].
    destruct (Hnat (Ny - 1)%Z j Hj) as [Hj0 Hj1].
    rewrite minus_IZR in Hi1, Hj1.
    assert (0 < dx * sqrt 3) by nra.
    repeat split; nra.
Qed.

Lemma hex_positions_in_square_witness :
  exists p,
    hex_positions 5 1 = Ok p
    /\ Forall (fun q => 0 <= fst q <= (IZR 5 - 1) * 1
                        /\ 0 <= snd q <= IZR 5 * 1 - 1 * sqrt 3 / 2) p.
Proof.
  apply (hex_positions_in_square 5 1); [lia | lra].
Defined.

(** ** Analytical directivity: spacing, scaling, degenerate weights *)

Lemma np_sinc_integer (k : Z) : k <> 0%Z -> np_sinc (IZR k) = 0.
Proof.
  intros Hk.
  assert (Hk' : IZR k <> 0) by (intros E; apply eq_IZR in E; contradiction).
  rewrite np_sinc_nonzero by assumption.
  rewrite (sin_eq_0_1 (PI * IZR k)) by (exists k; ring).
  unfold Rdiv. ring.
Qed.

Lemma Csum_zero {A : Type} (f : A -> C) (l : list A) :
  (forall a, In a l -> f a = C0) -> Csum (map f l) = C0.
Proof.
  intros H. induction l as [| a l IH]; [reflexivity |].
  cbn [map Csum fold_right]. fold (Csum (map f l)).
  rewrite H by (left; reflexivity).
  rewrite IH by (intros; apply H; now right).
  apply Cadd_C0_l.
Qed.

Lemma Csum_single_index (g : nat -> C) (i : nat) (l : list nat) :
  NoDup l -> In i l ->
  (forall j, In j l -> j <> i -> g j = C0) ->
  Csum (map g l) = g i.
Proof.
  induction 1 as [| a l Ha Hl IH]; intros Hi Hg; [easy |].
  cbn [map Csum fold_right]. fold (Csum (map g l)).
  destruct Hi as [-> | Hi].
  - rewrite Csum_zero.
    + unfold Cadd, C0. cbn [fst snd]. destruct (g i). cbn [fst snd].
      f_equal; ring.
    + intros j Hj. apply Hg; [now right |]. intros ->. contradiction.
  - rewrite IH; auto.
    + rewrite (Hg a) by (try (left; reflexivity); intros ->; contradiction).
      apply Cadd_C0_l.
    + intros j Hj. apply Hg. now right.
Qed.

Lemma coupling_sum_half_multiple (w : list C) (k : Z) :
  k <> 0%Z ->
  coupling_sum w (IZR k / 2) = Csum (map (fun z => Cmul z z) w).
Proof.
  intros Hk. unfold coupling_sum.
  rewrite (map_over_indices (fun z => Cmul z z) w C0).
  apply Csum_ext. intros i Hi.
  rewrite (Csum_single_index
             (fun j => Cmul (Cmul (nth i w C0) (nth j w C0))
                            (RtoC (np_sinc (2 * (IZR k / 2)
                                            * (INR i - INR j))))) i).
  - replace (2 * (IZR k / 2) * (INR i - INR i)) with 0 by field.
    rewrite np_sinc_0. unfold Cmul, RtoC. cbn [fst snd]. f_equal; ring.
  - apply seq_NoDup.
  - exact Hi.
  - intros j _ Hj.
    replace (2 * (IZR k / 2) * (INR i - INR j))
      with (IZR (k * (Z.of_nat i - Z.of_nat j)))
      by (rewrite mult_IZR, minus_IZR, <- !INR_IZR_INZ; field).
    rewrite np_sinc_integer by nia.
    apply Cmul_C0_r.
Qed.

Lemma uniform_weights_sums (N : nat) :
  Rsum (map Cmod (repeat (RtoC 1) N)) = INR N
  /\ Csum (map (fun z => Cmul z z) (repeat (RtoC 1) N)) = RtoC (INR N).
Proof.
  induction N as [| N [IH1 IH2]]; [split; reflexivity |].
  cbn [repeat map]. split.
  - cbn [Rsum fold_right]. fold (Rsum (map Cmod (repeat (RtoC 1) N))).
    rewrite IH1, Cmod_real, Rabs_R1, S_INR. ring.
  - cbn [Csum fold_right].
    fold (Csum (map (fun z => Cmul z z) (repeat (RtoC 1) N))).
    rewrite IH2, S_INR. unfold Cadd, Cmul, RtoC. cbn [fst snd].
    f_equal; ring.
Qed.

(** X14: spacing by a multiple of half a wavelength decouples the
    elements.  For [d = k/2] with a non-zero integer k every off-diagonal
    sinc vanishes, so [linear_directivity(w, d)] is [(sum_i |w_i|)^2]
    divided by [sum_i w_i^2]; for N >= 1 uniform weights it is exactly N. *)
Theorem linear_directivity_half_wavelength (w : list C) (k : Z) :
  k <> 0%Z ->
  linear_directivity w (IZR k / 2)
  = Ok (np_cdivide (RtoC (Rsum (map Cmod w) ^ 2))
                   (Csum (map (fun z => Cmul z z) w)))
  /\ forall N, (1 <= N)%nat ->
       linear_directivity (repeat (RtoC 1) N) (IZR k / 2)
       = Ok (Finite (RtoC (INR N))).
Proof.
  intros Hk. split.
  - now rewrite linear_directivity_closed, coupling_sum_half_multiple.
  - intros N HN.
    rewrite linear_directivity_closed, coupling_sum_half_multiple
      by assumption.
    destruct (uniform_weights_sums N) as [E1 E2]. rewrite E1, E2.
    assert (HN' : INR N <> 0) by (apply not_0_INR; lia).
    rewrite np_cdivide_real by assumption.
    do 3 f_equal. field. assumption.
Qed.

Lemma linear_directivity_half_wavelength_witness :
  linear_directivity [RtoC 1; RtoC 2] (IZR 1 / 2)
  = Ok (np_cdivide (RtoC (Rsum (map Cmod [RtoC 1; RtoC 2]) ^ 2))
                   (Csum (map (fun z => Cmul z z) [RtoC 1; RtoC 2])))
  /\ forall N, (1 <= N)%nat ->
       linear_directivity (repeat (RtoC 1) N) (IZR 1 / 2)
       = Ok (Finite (RtoC (INR N))).
Proof.
  apply (linear_directivity_half_wavelength [RtoC 1; RtoC 2] 1). lia.
Defined.

Lemma nth_map_Cmul (c : C) (w : list C) (i : nat) :
  nth i (map (Cmul c) w) C0 = Cmul c (nth i w C0).
Proof.
  rewrite <- (Cmul_C0_r c) at 1. apply map_nth.
Qed.

Lemma Rsum_scale (c : R) (v : list R) :
  Rsum (map (fun x => c * x) v) = c * Rsum v.
Proof.
  induction v as [| x v IH]; simpl; [ring |].
  fold (Rsum (map (fun x => c * x) v)) (Rsum v). rewrite IH. ring.
Qed.

Lemma coupling_sum_scale (c : R) (w : list C) (d : R) :
  coupling_sum (map (Cmul (RtoC c)) w) d
  = Cmul (RtoC (c * c)) (coupling_sum w d).
Proof.
  unfold coupling_sum. rewrite length_map, <- Cmul_Csum.
  apply Csum_ext. intros i _. rewrite <- Cmul_Csum.
  apply Csum_ext. intros j _. rewrite !nth_map_Cmul.
  unfold Cmul, RtoC. cbn [fst snd]. f_equal; ring.
Qed.

Lemma C_nonzero_norm (u v : R) : (u, v) <> C0 -> u * u + v * v <> 0.
Proof.
  intros H E. apply H. unfold C0.
  assert (u = 0) by nra. assert (v = 0) by nra. now subst.
Qed.

Lemma np_cdivide_scale (k : R) (x y : C) :
  k <> 0 ->
  np_cdivide (Cmul (RtoC k) x) (Cmul (RtoC k) y) = np_cdivide x y.
Proof.
  intros Hk. destruct x as [a b], y as [u v]. unfold np_cdivide.
  destruct (Ceq_dec (u, v) C0) as [E | E].
  - inversion E. subst.
    destruct (Ceq_dec (Cmul (RtoC k) (0, 0)) C0) as [_ | E'];
      [reflexivity |].
    exfalso. apply E'. apply (Cmul_C0_r (RtoC k)).
  - destruct (Ceq_dec (Cmul (RtoC k) (u, v)) C0) as [E' | _].
    + exfalso. apply E. unfold Cmul, RtoC, C0 in E'. cbn [fst snd] in E'.
      injection E' as E1 E2. unfold C0.
      assert (u = 0) by nra. assert (v = 0) by nra. now subst.
    + pose proof (C_nonzero_norm u v E) as Hn.
      assert (Hkn : k * u * (k * u) + k * v * (k * v) <> 0).
      { replace (k * u * (k * u) + k * v * (k * v))
          with (k * k * (u * u + v * v)) by ring.
        apply Rmult_integral_contrapositive_currified; [nra | assumption]. }
      unfold Cmul, Cinv, RtoC. cbn [fst snd].
      do 2 f_equal; field; split; assumption.
Qed.

(** X15: the directivity does not depend on the overall level of the
    taper: multiplying every weight by one non-zero real factor c leaves
    the result of [linear_directivity] unchanged. *)
Theorem linear_directivity_scale_invariant (w : list C) (c d : R) :
  c <> 0 ->
  linear_directivity (map (Cmul (RtoC c)) w) d = linear_directivity w d.
Proof.
  intros Hc. rewrite !linear_directivity_closed. f_equal.
  rewrite coupling_sum_scale.
  replace (RtoC (Rsum (map Cmod (map (Cmul (RtoC c)) w)) ^ 2))
    with (Cmul (RtoC (c * c)) (RtoC (Rsum (map Cmod w) ^ 2))).
  - apply np_cdivide_scale. nra.
  - rewrite map_map.
    rewrite (map_ext (fun z => Cmod (Cmul (RtoC c) z))
                     (fun z => Rabs c * Cmod z))
      by (intros; now rewrite Cmod_Cmul, Cmod_real).
    rewrite <- (map_map Cmod (fun x => Rabs c * x)), Rsum_scale.
    unfold Cmul, RtoC. cbn [fst snd]. f_equal; [| ring].
    assert (Ha : Rabs c ^ 2 = c * c)
      by (rewrite <- Rsqr_pow2, <- Rsqr_abs; reflexivity).
    replace ((Rabs c * Rsum (map Cmod w)) ^ 2)
      with (Rabs c ^ 2 * Rsum (map Cmod w) ^ 2) by ring.
    rewrite Ha. ring.
Qed.

Lemma linear_directivity_scale_invariant_witness :
  linear_directivity (map (Cmul (RtoC 3)) [RtoC 1; (0, 1)]) (1 / 2)
  = linear_directivity [RtoC 1; (0, 1)] (1 / 2).
Proof.
  apply (linear_directivity_scale_invariant [RtoC 1; (0, 1)] 3 (1 / 2)).
  lra.
Defined.

(** X16: weights that are all zero, the empty weight list among them, end
    in the division 0/0: [linear_directivity] returns a non-finite value
    for every spacing, and no exception. *)
Theorem linear_directivity_zero_weights (w : list C) (d : R) :
  Forall (fun z => z = C0) w -> linear_directivity w d = Ok NonFinite.
Proof.
  intros H. rewrite linear_directivity_closed. f_equal.
  replace (coupling_sum w d) with C0; [apply np_cdivide_zero |].
  symmetry. unfold coupling_sum.
  assert (Hnth : forall i, nth i w C0 = C0).
  { intros i. destruct (nth_in_or_default i w C0) as [Hin | E]; [| exact E].
    rewrite Forall_forall in H. now apply H. }
  apply Csum_zero. intros i _. apply Csum_zero. intros j _.
  rewrite !Hnth. unfold Cmul, C0, RtoC. cbn [fst snd]. f_equal; ring.
Qed.

Lemma linear_directivity_zero_weights_witness :
  linear_directivity [] 1 = Ok NonFinite.
Proof.
  apply (linear_directivity_zero_weights [] 1). constructor.
Defined.

Lemma Cadd_comm (z w : C) : Cadd z w = Cadd w z.
Proof. unfold Cadd. f_equal; ring. Qed.

Lemma Csum_rev (l : list C) : Csum (rev l) = Csum l.
Proof.
  induction l as [| z l IH]; [reflexivity |].
  cbn [rev]. rewrite Csum_app, IH.
  cbn [Csum fold_right]. fold (Csum l).
  rewrite (Cadd_comm z C0), Cadd_C0_l. apply Cadd_comm.
Qed.

Lemma Rsum_app (u v : list R) : Rsum (u ++ v) = Rsum u + Rsum v.
Proof.
  induction u as [| x u IH]; simpl; [ring |].
  fold (Rsum (u ++ v)) (Rsum u). rewrite IH. ring.
Qed.

Lemma Rsum_rev (l : list R) : Rsum (rev l) = Rsum l.
Proof.
  induction l as [| x l IH]; [reflexivity |].
  cbn [rev]. rewrite Rsum_app, IH. simpl. fold (Rsum l). ring.
Qed.

Lemma rev_seq_0 (N : nat) :
  rev (seq 0 N) = map (fun i => (N - 1 - i)%nat) (seq 0 N).
Proof.
  apply (nth_ext _ _ 0%nat (N - 1 - 0)%nat).
  - now rewrite length_rev, length_map.
  - intros n Hn. rewrite length_rev, length_seq in Hn.
    rewrite rev_nth by (rewrite length_seq; exact Hn).
    rewrite length_seq, seq_nth by lia.
    rewrite (map_nth (fun i => (N - 1 - i)%nat)), seq_nth by exact Hn.
    lia.
Qed.

Lemma Csum_reflect (N : nat) (h : nat -> C) :
  Csum (map (fun i => h (N - 1 - i)%nat) (seq 0 N)) = Csum (map h (seq 0 N)).
Proof.
  rewrite <- (map_map (fun i => (N - 1 - i)%nat) h), <- rev_seq_0.
  now rewrite map_rev, Csum_rev.
Qed.

Lemma np_sinc_even (x : R) : np_sinc (- x) = np_sinc x.
Proof.
  unfold np_sinc.
  destruct (Req_dec_T x 0) as [-> | Hx].
  - rewrite Ropp_0. destruct (Req_dec_T 0 0); [reflexivity | easy].
  - destruct (Req_dec_T (- x) 0) as [E | _]; [lra |].
    replace (PI * - x) with (- (PI * x)) by ring.
    rewrite sin_neg. field. split; [assumption | apply PI_neq0].
Qed.

(** X17: a taper and its mirror image have the same directivity:
    [linear_directivity] returns the same result on the reversed weight
    list. *)
Theorem linear_directivity_reversal (w : list C) (d : R) :
  linear_directivity (rev w) d = linear_directivity w d.
Proof.
  rewrite !linear_directivity_closed. do 2 f_equal.
  - now rewrite map_rev, Rsum_rev.
  - unfold coupling_sum. rewrite length_rev.
    set (N := length w).
    set (T := fun a b =>
                Cmul (Cmul (nth a w C0) (nth b w C0))
                     (RtoC (np_sinc (2 * d * (INR a - INR b))))).
    transitivity
      (Csum (map (fun i =>
                    Csum (map (fun j => T (N - 1 - i)%nat (N - 1 - j)%nat)
                              (seq 0 N)))
                 (seq 0 N))).
    + apply Csum_ext. intros i Hi. apply in_seq in Hi.
      apply Csum_ext. intros j Hj. apply in_seq in Hj. unfold T.
      rewrite !rev_nth by (fold N; lia). fold N.
      replace (N - S i)%nat with (N - 1 - i)%nat by lia.
      replace (N - S j)%nat with (N - 1 - j)%nat by lia.
      do 2 f_equal.
      rewrite <- np_sinc_even. f_equal.
      rewrite !minus_INR by lia. ring.
    + rewrite (Csum_ext _ (fun i => Csum (map (T (N - 1 - i)%nat) (seq 0 N))))
        by (intros; apply (Csum_reflect N (T (N - 1 - a)%nat))).
      apply (Csum_reflect N (fun a => Csum (map (T a) (seq 0 N)))).
Qed.

(** ** Numerical directivity: scaling, errors, the isotropic bound *)

Lemma concat_map_map {A B : Type} (f : A -> B) (M : list (list A)) :
  concat (map (map f) M) = map f (concat M).
Proof.
  induction M as [| row M IH]; [reflexivity |].
  cbn [map concat]. now rewrite map_app, IH.
Qed.

Lemma fold_left_Rmax_scale (c : R) (xs : list R) (x : R) :
  0 <= c ->
  fold_left Rmax (map (fun y => c * y) xs) (c * x)
  = c * fold_left Rmax xs x.
Proof.
  intros Hc. revert x. induction xs as [| a xs IH]; intros x; [reflexivity |].
  cbn [map fold_left]. rewrite RmaxRmult by assumption. apply IH.
Qed.

Lemma np_max_scale (c : R) (M : list (list R)) :
  0 <= c ->
  np_max (map (map (fun y => c * y)) M) = fmap (fun y => c * y) (np_max M).
Proof.
  intros Hc. unfold np_max. rewrite concat_map_map.
  destruct (concat M) as [| x xs]; [reflexivity |].
  cbn [map fmap]. now rewrite fold_left_Rmax_scale.
Qed.

Lemma broadcast_Rmult_scale (c : R) (row s : list R) :
  broadcast Rmult (map (fun y => c * y) row) s
  = fmap (map (fun y => c * y)) (broadcast Rmult row s).
Proof.
  unfold broadcast. rewrite length_map.
  destruct (length row =? length s)%nat.
  - cbn [fmap]. f_equal. revert s.
    induction row as [| a row IH]; intros [| b s]; simpl; auto.
    rewrite IH. f_equal. ring.
  - destruct (length s =? 1)%nat.
    + cbn [fmap]. f_equal. rewrite !map_map. apply map_ext. intros. ring.
    + destruct (length row =? 1)%nat; [| reflexivity].
      cbn [fmap]. f_equal. rewrite map_map.
      destruct row as [| a row]; simpl; apply map_ext; intros; ring.
Qed.

Lemma mapM_fmap {A B : Type} (f g : A -> result B) (h : B -> B)
  (l : list A) :
  (forall a, g a = fmap h (f a)) ->
  mapM g l = fmap (map h) (mapM f l).
Proof.
  intros H. induction l as [| a l IH]; [reflexivity |].
  cbn [mapM]. rewrite H, IH.
  destruct (f a); [| reflexivity]. cbn [fmap bind].
  destruct (mapM f l); reflexivity.
Qed.

Lemma mapM_map {A A' B : Type} (f : A' -> result B) (g : A -> A')
  (l : list A) :
  mapM f (map g l) = mapM (fun a => f (g a)) l.
Proof.
  induction l as [| a l IH]; [reflexivity |].
  cbn [map mapM]. now rewrite IH.
Qed.

Lemma radiated_power_scale (c : R) (PowerPattern : list (list R))
  (theta phi : list R) :
  radiated_power (map (map (fun y => c * y)) PowerPattern) theta phi
  = fmap (fun y => c * y) (radiated_power PowerPattern theta phi).
Proof.
  unfold radiated_power.
  destruct (getitem theta 1) as [t1 |]; [| reflexivity].
  destruct (getitem theta 0) as [t0 |]; [| reflexivity].
  destruct (getitem phi 1) as [p1 |]; [| reflexivity].
  destruct (getitem phi 0) as [p0 |]; [| reflexivity]. cbn [bind].
  rewrite mapM_map.
  rewrite (mapM_fmap
             (fun row => broadcast Rmult row (map sin theta))
             (fun row => broadcast Rmult (map (fun y => c * y) row)
                                         (map sin theta))
             (map (fun y => c * y)))
    by (intros; apply broadcast_Rmult_scale).
  destruct (mapM (fun row => broadcast Rmult row (map sin theta))
                 PowerPattern) as [W |]; [| reflexivity].
  cbn [fmap bind]. f_equal.
  rewrite !map_map.
  rewrite (map_ext (fun x => Rsum (map (fun y => c * y) x) * (t1 - t0))
                   (fun x => c * (Rsum x * (t1 - t0))))
    by (intros; rewrite Rsum_scale; ring).
  rewrite <- (map_map (fun x => Rsum x * (t1 - t0)) (fun y => c * y)).
  rewrite Rsum_scale. ring.
Qed.

Lemma np_divide_scale (c x y : R) :
  c <> 0 -> np_divide (c * x) (c * y) = np_divide x y.
Proof.
  intros Hc. unfold np_divide.
  destruct (Req_dec_T y 0) as [-> | Hy].
  - rewrite Rmult_0_r. destruct (Req_dec_T 0 0); [reflexivity | easy].
  - destruct (Req_dec_T (c * y) 0) as [E | _].
    + apply Rmult_integral in E. destruct E; contradiction.
    + f_equal. field. split; assumption.
Qed.

(** X18: the numerical directivity does not depend on the level of the
    pattern: multiplying every sample of the power pattern by one factor
    c > 0 leaves the result of [numerical_directivity] unchanged, errors
    included. *)
Theorem numerical_directivity_scale_invariant (c : R)
  (PowerPattern : list (list R)) (theta phi : list R) :
  0 < c ->
  numerical_directivity (map (map (fun y => c * y)) PowerPattern) theta phi
  = numerical_directivity PowerPattern theta phi.
Proof.
  intros Hc. unfold numerical_directivity.
  rewrite np_max_scale by lra. rewrite radiated_power_scale.
  destruct (np_max PowerPattern) as [pmax |]; [| reflexivity].
  cbn [fmap bind].
  destruct (radiated_power PowerPattern theta phi) as [P_rad |];
    [| reflexivity].
  cbn [fmap bind]. f_equal.
  replace (4 * PI * (c * pmax)) with (c * (4 * PI * pmax)) by ring.
  apply np_divide_scale. lra.
Qed.

Lemma numerical_directivity_scale_invariant_witness :
  numerical_directivity (map (map (fun y => 2 * y)) [[1; 2]; [3; 4]])
                        [0; 1] [0; 2]
  = numerical_directivity [[1; 2]; [3; 4]] [0; 1] [0; 2].
Proof.
  apply (numerical_directivity_scale_invariant 2 [[1; 2]; [3; 4]]
           [0; 1] [0; 2]).
  lra.
Defined.

Lemma broadcast_refused (f : R -> R -> R) (u v : list R) :
  length u <> length v -> length v <> 1%nat -> length u <> 1%nat ->
  broadcast f u v = Raise ValueError.
Proof.
  intros H1 H2 H3. unfold broadcast.
  destruct (Nat.eqb_spec (length u) (length v)); [contradiction |].
  destruct (Nat.eqb_spec (length v) 1); [contradiction |].
  destruct (Nat.eqb_spec (length u) 1); [contradiction | reflexivity].
Qed.

Lemma broadcast_outcome (f : R -> R -> R) (u v : list R) :
  broadcast f u v = Raise ValueError \/ exists r, broadcast f u v = Ok r.
Proof.
  unfold broadcast.
  destruct (length u =? length v)%nat; [right; eauto |].
  destruct (length v =? 1)%nat; [right; eauto |].
  destruct (length u =? 1)%nat; [right; eauto | now left].
Qed.

Lemma mapM_raises {A B : Type} (f : A -> result B) (e : exn) (l : list A) :
  (forall a, f a = Raise e \/ exists b, f a = Ok b) ->
  Exists (fun a => f a = Raise e) l ->
  mapM f l = Raise e.
Proof.
  intros Hf. induction 1 as [a l Ha | a l _ IH]; cbn [mapM].
  - now rewrite Ha.
  - rewrite IH. destruct (Hf a) as [-> | [b ->]]; reflexivity.
Qed.

(** X19: a pattern that does not fit the theta grid is refused.  With two
    or more samples in theta and in phi, a row of the power pattern whose
    length is neither len(theta) nor 1 cannot be broadcast against
    sin(theta): [radiated_power] and [numerical_directivity] raise
    ValueError. *)
Theorem radiated_power_shape_mismatch (PowerPattern : list (list R))
  (theta phi : list R) :
  (2 <= length theta)%nat -> (2 <= length phi)%nat ->
  Exists (fun row => length row <> length theta /\ length row <> 1%nat)
         PowerPattern ->
  radiated_power PowerPattern theta phi = Raise ValueError
  /\ numerical_directivity PowerPattern theta phi = Raise ValueError.
Proof.
  intros Ht Hp Hrow.
  assert (E : radiated_power PowerPattern theta phi = Raise ValueError).
  { unfold radiated_power.
    destruct (getitem_two theta Ht) as [E1 E0]. rewrite E1, E0.
    destruct (getitem_two phi Hp) as [F1 F0]. rewrite F1, F0.
    cbn [bind]. rewrite (mapM_raises _ ValueError); [reflexivity | |].
    - intros row. apply broadcast_outcome.
    - eapply Exists_impl; [| exact Hrow].
      intros row [H1 H2]. apply broadcast_refused;
        rewrite ?length_map; auto; lia. }
  split; [exact E |].
  unfold numerical_directivity.
  destruct (np_max PowerPattern) as [pmax | e] eqn:Em.
  - cbn [bind]. now rewrite E.
  - unfold np_max in Em. destruct (concat PowerPattern); [| discriminate].
    now injection Em as <-.
Qed.

Lemma radiated_power_shape_mismatch_witness :
  radiated_power [[1; 2; 3]] [0; 1] [0; 2] = Raise ValueError
  /\ numerical_directivity [[1; 2; 3]] [0; 1] [0; 2] = Raise ValueError.
Proof.
  apply (radiated_power_shape_mismatch [[1; 2; 3]] [0; 1] [0; 2]).
  - simpl. lia.
  - simpl. lia.
  - constructor. simpl. split; lia.
Defined.

(** X20: on a pattern without samples [numerical_directivity] fails in
    [np.max], before any grid is read: it raises ValueError whatever theta
    and phi are, also when they are too short for [radiated_power]. *)
Theorem numerical_directivity_empty_pattern (PowerPattern : list (list R))
  (theta phi : list R) :
  concat PowerPattern = [] ->
  numerical_directivity PowerPattern theta phi = Raise ValueError.
Proof.
  intros H. unfold numerical_directivity, np_max. now rewrite H.
Qed.

Lemma numerical_directivity_empty_pattern_witness :
  numerical_directivity [[]; []] [] [0] = Raise ValueError.
Proof.
  apply (numerical_directivity_empty_pattern [[]; []] [] [0]). reflexivity.
Defined.

Lemma weighted_row_bound (row theta : list R) (pmax : R) :
  Forall (fun x => x <= pmax) row ->
  Forall (fun t => 0 <= sin t) theta ->
  length row = length theta ->
  Rsum (map2 (fun p t => p * sin t) row theta) <= pmax * Rsum (map sin theta).
Proof.
  intros Hrow. revert theta.
  induction Hrow as [| x row Hx Hrow IH]; intros [| t theta] Ht Hlen;
    try discriminate.
  - simpl. lra.
  - inversion Ht as [| ? ? Hs Ht']; subst.
    cbn [map2 map Rsum fold_right].
    fold (Rsum (map2 (fun p t0 => p * sin t0) row theta))
         (Rsum (map sin theta)).
    specialize (IH theta Ht' ltac:(simpl in Hlen; lia)). nra.
Qed.

Lemma Rsum_nonneg (v : list R) : Forall (fun x => 0 <= x) v -> 0 <= Rsum v.
Proof.
  induction 1 as [| x v Hx Hv IH]; simpl; [lra |]. fold (Rsum v). lra.
Qed.

Lemma Rsum_le_const (b : R) (v : list R) :
  Forall (fun x => x <= b) v -> Rsum v <= INR (length v) * b.
Proof.
  induction 1 as [| x v Hx Hv IH].
  - simpl. lra.
  - cbn [Rsum fold_right length]. fold (Rsum v). rewrite S_INR. lra.
Qed.

Lemma rectangle_rule_bound (PowerPattern : list (list R)) (theta : list R)
  (pmax dtheta dphi : R) :
  Forall (fun row => length row = length theta) PowerPattern ->
  (forall x, In x (concat PowerPattern) -> x <= pmax) ->
  Forall (fun t => 0 <= sin t) theta ->
  0 <= dtheta -> 0 <= dphi ->
  rectangle_rule PowerPattern theta dtheta dphi
  <= pmax * (INR (length PowerPattern) * Rsum (map sin theta)
             * dtheta * dphi).
Proof.
  intros Hrows Hmax Hsin Hdt Hdp. unfold rectangle_rule.
  set (S := Rsum (map sin theta)).
  assert (Hb : Forall (fun x => x <= pmax * S * dtheta)
                 (map (fun row =>
                         Rsum (map2 (fun p t => p * sin t) row theta)
                         * dtheta) PowerPattern)).
  { apply Forall_forall. intros x Hx. apply in_map_iff in Hx.
    destruct Hx as (row & <- & Hrow).
    apply Rmult_le_compat_r; [assumption |].
    apply weighted_row_bound; auto.
    - apply Forall_forall. intros y Hy. apply Hmax.
      apply in_concat. now exists row.
    - rewrite Forall_forall in Hrows. now apply Hrows. }
  apply Rsum_le_const in Hb. rewrite length_map in Hb.
  apply Rle_trans with (INR (length PowerPattern) * (pmax * S * dtheta) * dphi).
  - apply Rmult_le_compat_r; assumption.
  - apply Req_le. ring.
Qed.

(** X21: the isotropic bound.  For a non-empty pattern that fits a theta
    grid inside [0, pi], increasing first samples of theta and phi and a
    positive radiated power, [numerical_directivity] returns a finite value
    that is at least 4*pi divided by the quadrature's measure of the
    sphere, [nphi * (sum_theta sin(theta)) * dtheta * dphi]: no pattern is
    less directive than a constant one. *)
Theorem numerical_directivity_isotropic_bound (PowerPattern : list (list R))
  (theta phi : list R) :
  (2 <= length theta)%nat -> (2 <= length phi)%nat ->
  PowerPattern <> [] ->
  Forall (fun row => length row = length theta) PowerPattern ->
  Forall (fun t => 0 <= t <= PI) theta ->
  nth 0 theta 0 < nth 1 theta 0 ->
  nth 0 phi 0 < nth 1 phi 0 ->
  0 < rectangle_rule PowerPattern theta
        (nth 1 theta 0 - nth 0 theta 0) (nth 1 phi 0 - nth 0 phi 0) ->
  exists D,
    numerical_directivity PowerPattern theta phi = Ok (Finite D)
    /\ 4 * PI / (INR (length PowerPattern) * Rsum (map sin theta)
                 * (nth 1 theta 0 - nth 0 theta 0)
                 * (nth 1 phi 0 - nth 0 phi 0))
       <= D.
Proof.
  intros Ht Hp HP Hrows Hth Hdt Hdp Hpos.
  set (dt := nth 1 theta 0 - nth 0 theta 0) in *.
  set (dp := nth 1 phi 0 - nth 0 phi 0) in *.
  set (P_rad := rectangle_rule PowerPattern theta dt dp) in *.
  set (W := INR (length PowerPattern) * Rsum (map sin theta) * dt * dp).
  destruct (np_max_spec PowerPattern) as (pmax & Hmax & Hin & Hle).
  { apply (concat_rows_nonempty _ (length theta)); auto; lia. }
  assert (Hsin : Forall (fun t => 0 <= sin t) theta).
  { eapply Forall_impl; [| exact Hth]. intros t [H0 H1].
    now apply sin_ge_0. }
  assert (HW0 : 0 <= W).
  { unfold W. assert (0 <= Rsum (map sin theta)).
    { apply Rsum_nonneg. apply Forall_forall. intros x Hx.
      apply in_map_iff in Hx. destruct Hx as (t & <- & Hx).
      rewrite Forall_forall in Hsin. now apply Hsin. }
    pose proof (pos_INR (length PowerPattern)).
    assert (0 <= dt) by (unfold dt; lra).
    assert (0 <= dp) by (unfold dp; lra).
    repeat apply Rmult_le_pos; assumption. }
  assert (Hb : P_rad <= pmax * W).
  { apply rectangle_rule_bound; auto; unfold dt, dp; lra. }
  assert (HW : 0 < W).
  { destruct HW0 as [HW0 | HW0]; [assumption |].
    rewrite <- HW0, Rmult_0_r in Hb. lra. }
  exists (4 * PI * pmax / P_rad). split.
  - unfold numerical_directivity. rewrite Hmax. cbn [bind].
    rewrite (radiated_power_rule PowerPattern theta phi Ht Hp Hrows).
    cbn [bind]. fold dt dp P_rad. unfold np_divide.
    destruct (Req_dec_T P_rad 0); [lra | reflexivity].
  - fold W. pose proof PI_RGT_0 as Hpi.
    apply Rmult_le_reg_r with (P_rad * W); [nra |].
    replace (4 * PI / W * (P_rad * W)) with (4 * PI * P_rad)
      by (field; lra).
    replace (4 * PI * pmax / P_rad * (P_rad * W)) with (4 * PI * (pmax * W))
      by (field; lra).
    apply Rmult_le_compat_l; [lra | exact Hb].
Qed.

Lemma numerical_directivity_isotropic_bound_witness :
  exists D,
    numerical_directivity [[1; 1]; [1; 1]] [PI / 2; PI] [0; 1]
    = Ok (Finite D)
    /\ 4 * PI / (INR (length [[1; 1]; [1; 1]])
                 * Rsum (map sin [PI / 2; PI])
                 * (nth 1 [PI / 2; PI] 0 - nth 0 [PI / 2; PI] 0)
                 * (nth 1 [0; 1] 0 - nth 0 [0; 1] 0))
       <= D.
Proof.
  pose proof PI_RGT_0 as Hpi.
  apply (numerical_directivity_isotropic_bound [[1; 1]; [1; 1]]
           [PI / 2; PI] [0; 1]).
  - simpl. lia.
  - simpl. lia.
  - discriminate.
  - repeat constructor.
  - repeat constructor; lra.
  - simpl. lra.
  - simpl. lra.
  - unfold rectangle_rule. simpl. rewrite sin_PI2, sin_PI. lra.
Defined.

(** ** Imported patterns *)

Lemma ceilZ_bounds (x : R) : x <= IZR (ceilZ x) < x + 1.
Proof.
  unfold ceilZ. destruct (base_Int_part (- x)) as [Hlo Hhi].
  rewrite opp_IZR. lra.
Qed.

Lemma ceilZ_IZR (k : Z) : ceilZ (IZR k) = k.
Proof.
  destruct (ceilZ_bounds (IZR k)) as [Hlo Hhi].
  apply le_IZR in Hlo.
  assert (H : (ceilZ (IZR k) < k + 1)%Z)
    by (apply lt_IZR; rewrite plus_IZR; exact Hhi).
  lia.
Qed.

Lemma ceilZ_lower (x : R) (k : Z) : IZR k < x -> (k < ceilZ x)%Z.
Proof.
  intros H. destruct (ceilZ_bounds x) as [Hlo _].
  apply lt_IZR. lra.
Qed.

(** The degree grid of [import_pattern] from 0 up to [stop]. *)
Lemma np_arange_step_grid (stop delta : R) :
  delta <> 0 ->
  np_arange_step 0 stop delta
  = Returns (map (fun i => 0 + INR i * delta)
                 (seq 0 (Z.to_nat (ceilZ ((stop - 0) / delta))))).
Proof.
  intros H. unfold np_arange_step.
  destruct (Req_dec_T delta 0); [contradiction | reflexivity].
Qed.

Lemma length_degree_grid (delta : R) (n : nat) :
  length (np_radians (map (fun i => 0 + INR i * delta) (seq 0 n))) = n.
Proof.
  unfold np_radians. now rewrite !length_map, length_seq.
Qed.

Lemma import_pattern_unfold (table : list (list R)) (delta : R) :
  delta <> 0 ->
  import_pattern table delta
  = lift (c <- loadtxt_column 2 table ;;
          Eabs <- np_reshape_rows
                    (Z.to_nat (ceilZ ((360 - 0) / delta))) c ;;
          Ok (Eabs,
              np_radians
                (map (fun i => 0 + INR i * delta)
                     (seq 0 (Z.to_nat
                               (ceilZ ((180 + delta - 0) / delta))))),
              np_radians
                (map (fun i => 0 + INR i * delta)
                     (seq 0 (Z.to_nat (ceilZ ((360 - 0) / delta))))))).
Proof.
  intros H. unfold import_pattern.
  rewrite !np_arange_step_grid by assumption. cbn [obind]. cbv zeta.
  now rewrite length_degree_grid.
Qed.

Lemma nth_degree_grid (delta : R) (n i : nat) :
  (i < n)%nat ->
  nth i (np_radians (map (fun i => 0 + INR i * delta) (seq 0 n))) 0
  = INR i * delta * (PI / 180).
Proof.
  intros Hi. unfold np_radians. rewrite map_map.
  rewrite (nth_indep _ 0 ((0 + INR 0 * delta) * (PI / 180)))
    by now rewrite length_map, length_seq.
  rewrite (map_nth (fun i => (0 + INR i * delta) * (PI / 180))).
  rewrite seq_nth by assumption. cbn [Nat.add]. ring.
Qed.

Lemma np_reshape_rows_shape {A : Type} (nrows : nat) (v : list A)
  (M : list (list A)) :
  np_reshape_rows nrows v = Ok M ->
  length M = nrows
  /\ Forall (fun row => length row = (length v / nrows)%nat) M
  /\ length v = (nrows * (length v / nrows))%nat.
Proof.
  unfold np_reshape_rows, np_reshape.
  destruct (Nat.eqb_spec nrows 0) as [| Hn]; [discriminate |].
  destruct (Nat.eqb_spec (length v mod nrows) 0) as [Hm |]; [| discriminate].
  set (ncols := (length v / nrows)%nat).
  destruct (Nat.eqb_spec (length v) (nrows * ncols)) as [Hl |];
    [| discriminate].
  intros E. injection E as <-.
  split; [now rewrite length_map, length_seq |]. split; [| exact Hl].
  apply Forall_forall. intros row Hrow.
  apply in_map_iff in Hrow. destruct Hrow as (r & <- & Hr).
  apply in_seq in Hr.
  rewrite length_firstn, length_skipn. nia.
Qed.

Lemma column_length (k : nat) (table : list (list R)) (c : list R) :
  column k table = Ok c -> length c = length table.
Proof.
  unfold column. revert c.
  induction table as [| row table IH]; intros c Ec.
  - now injection Ec as <-.
  - cbn [mapM] in Ec. destruct (getitem row k); [| discriminate].
    cbn [bind] in Ec.
    destruct (mapM (fun row0 => getitem row0 k) table) as [cs |];
      [| discriminate].
    cbn [bind] in Ec. injection Ec as <-. simpl. f_equal. now apply IH.
Qed.

Lemma loadtxt_column_ok (k : nat) (table : list (list R)) (c : list R) :
  loadtxt_column k table = Ok c ->
  column k table = Ok c /\ (2 <= length table)%nat.
Proof.
  unfold loadtxt_column.
  destruct (Nat.leb_spec (length table) 1); [discriminate |].
  intros E. split; [exact E | lia].
Qed.

Lemma theta_grid_size (delta : R) :
  0 < delta -> (1 < ceilZ ((180 + delta - 0) / delta))%Z.
Proof.
  intros Hd. apply ceilZ_lower.
  replace ((180 + delta - 0) / delta) with (180 / delta + 1)
    by (field; lra).
  assert (0 < 180 / delta) by (apply Rdiv_lt_0_compat; lra). lra.
Qed.

Lemma phi_grid_size (delta : R) :
  0 < delta ->
  (0 < ceilZ ((360 - 0) / delta))%Z
  /\ (delta < 360 -> (1 < ceilZ ((360 - 0) / delta))%Z).
Proof.
  intros Hd. split.
  - apply ceilZ_lower. apply Rdiv_lt_0_compat; lra.
  - intros H360. apply ceilZ_lower.
    apply Rmult_lt_reg_r with delta; [assumption |].
    replace ((360 - 0) / delta * delta) with 360 by (field; lra). lra.
Qed.

(** X22: the grids of an imported pattern.  For [delta > 0], whenever
    [import_pattern] returns, theta and phi are equally spaced by
    radians(delta) from 0, theta has at least two samples and reaches pi,
    phi has at least one (two when delta < 360) and stays below 2*pi, and
    the pattern has one row per phi sample, all rows of one length. *)
Theorem import_pattern_grids (table : list (list R)) (delta : R)
  (Eabs : list (list R)) (theta phi : list R) :
  0 < delta ->
  import_pattern table delta = Returns (Eabs, theta, phi) ->
  (2 <= length theta)%nat
  /\ (1 <= length phi)%nat
  /\ (delta < 360 -> (2 <= length phi)%nat)
  /\ (forall i, (i < length theta)%nat ->
        nth i theta 0 = INR i * delta * (PI / 180))
  /\ (forall i, (i < length phi)%nat ->
        nth i phi 0 = INR i * delta * (PI / 180))
  /\ PI <= nth (length theta - 1) theta 0
  /\ nth (length phi - 1) phi 0 < 2 * PI
  /\ length Eabs = length phi
  /\ exists ncols,
       Forall (fun row => length row = ncols) Eabs
       /\ length table = (length phi * ncols)%nat.
Proof.
  intros Hd Hret. rewrite import_pattern_unfold in Hret by lra.
  destruct (loadtxt_column 2 table) as [c |] eqn:Ec; [| discriminate].
  apply loadtxt_column_ok in Ec. destruct Ec as [Ec _].
  cbn [bind] in Hret.
  set (nphi := Z.to_nat (ceilZ ((360 - 0) / delta))) in *.
  set (ntheta := Z.to_nat (ceilZ ((180 + delta - 0) / delta))) in *.
  destruct (np_reshape_rows nphi c) as [M |] eqn:EM; [| discriminate].
  cbn [bind lift] in Hret. injection Hret as <- <- <-.
  rewrite !length_degree_grid.
  pose proof PI_RGT_0 as Hpi.
  pose proof (theta_grid_size delta Hd) as Hnt.
  destruct (phi_grid_size delta Hd) as [Hnp Hnp2].
  pose proof (column_length 2 table c Ec) as Hlen.
  destruct (np_reshape_rows_shape nphi c M EM) as (HM & Hrows & Hsize).
  split; [unfold ntheta; lia |]. split; [unfold nphi; lia |].
  split.
  { intros H360. specialize (Hnp2 H360). unfold nphi. lia. }
  split; [intros i Hi; now apply nth_degree_grid |].
  split; [intros i Hi; now apply nth_degree_grid |].
  split.
  { rewrite nth_degree_grid by (unfold ntheta; lia).
    destruct (ceilZ_bounds ((180 + delta - 0) / delta)) as [Hlo _].
    assert (E : INR (ntheta - 1)
                = IZR (ceilZ ((180 + delta - 0) / delta)) - 1).
    { unfold ntheta. rewrite minus_INR by lia.
      rewrite INR_IZR_INZ, Z2Nat.id by lia. simpl. ring. }
    rewrite E.
    assert (H180 : 180 <= (IZR (ceilZ ((180 + delta - 0) / delta)) - 1)
                          * delta).
    { replace 180 with (((180 + delta - 0) / delta - 1) * delta)
        at 1 by (field; lra).
      apply Rmult_le_compat_r; lra. }
    replace PI with (180 * (PI / 180)) at 1 by field.
    apply Rmult_le_compat_r; [lra | exact H180]. }
  split.
  { rewrite nth_degree_grid by (unfold nphi; lia).
    destruct (ceilZ_bounds ((360 - 0) / delta)) as [_ Hhi].
    assert (E : INR (nphi - 1) = IZR (ceilZ ((360 - 0) / delta)) - 1).
    { unfold nphi. rewrite minus_INR by lia.
      rewrite INR_IZR_INZ, Z2Nat.id by lia. simpl. ring. }
    rewrite E.
    assert (H360 : (IZR (ceilZ ((360 - 0) / delta)) - 1) * delta < 360).
    { replace 360 with ((360 - 0) / delta * delta) at 2 by (field; lra).
      apply Rmult_lt_compat_r; lra. }
    replace (2 * PI) with (360 * (PI / 180)) by field.
    apply Rmult_lt_compat_r; [lra | exact H360]. }
  split; [exact HM |].
  exists (length c / nphi)%nat. split; [exact Hrows |].
  now rewrite <- Hlen.
Qed.

Lemma import_pattern_sample :
  import_pattern [[0; 0; 1]; [0; 0; 2]; [0; 0; 3]; [0; 0; 4]] 180
  = Returns ([[1; 2]; [3; 4]],
             np_radians (map (fun i => 0 + INR i * 180) (seq 0 2)),
             np_radians (map (fun i => 0 + INR i * 180) (seq 0 2))).
Proof.
  rewrite import_pattern_unfold by lra.
  replace ((360 - 0) / 180) with (IZR 2) by field.
  replace ((180 + 180 - 0) / 180) with (IZR 2) by field.
  rewrite ceilZ_IZR. reflexivity.
Qed.

Lemma import_pattern_grids_witness :
  let theta := np_radians (map (fun i => 0 + INR i * 180) (seq 0 2)) in
  let phi := np_radians (map (fun i => 0 + INR i * 180) (seq 0 2)) in
  (2 <= length theta)%nat
  /\ (1 <= length phi)%nat
  /\ (180 < 360 -> (2 <= length phi)%nat)
  /\ (forall i, (i < length theta)%nat ->
        nth i theta 0 = INR i * 180 * (PI / 180))
  /\ (forall i, (i < length phi)%nat ->
        nth i phi 0 = INR i * 180 * (PI / 180))
  /\ PI <= nth (length theta - 1) theta 0
  /\ nth (length phi - 1) phi 0 < 2 * PI
  /\ length [[1; 2]; [3; 4]] = length phi
  /\ exists ncols,
       Forall (fun row => length row = ncols) [[1; 2]; [3; 4]]
       /\ length [[0; 0; 1]; [0; 0; 2]; [0; 0; 3]; [0; 0; 4]]
          = (length phi * ncols)%nat.
Proof.
  apply (import_pattern_grids
           [[0; 0; 1]; [0; 0; 2]; [0; 0; 3]; [0; 0; 4]] 180
           [[1; 2]; [3; 4]]).
  - lra.
  - apply import_pattern_sample.
Defined.

(** X23: an imported pattern can be integrated.  For [0 < delta < 360],
    when [import_pattern] returns (Eabs, theta, phi) from a table with one
    line per grid point, [radiated_power] on them raises nothing and is the
    rectangle rule with both steps radians(delta), the spacing of every
    pair of neighbouring samples; [numerical_directivity] returns too. *)
Theorem import_pattern_radiated_power (table : list (list R)) (delta : R)
  (Eabs : list (list R)) (theta phi : list R) :
  0 < delta < 360 ->
  import_pattern table delta = Returns (Eabs, theta, phi) ->
  length table = (length phi * length theta)%nat ->
  radiated_power Eabs theta phi
  = Ok (rectangle_rule Eabs theta (delta * (PI / 180)) (delta * (PI / 180)))
  /\ exists D, numerical_directivity Eabs theta phi = Ok D.
Proof.
  intros [Hd H360] Hret Htable.
  rewrite import_pattern_unfold in Hret by lra.
  destruct (loadtxt_column 2 table) as [c |] eqn:Ec; [| discriminate].
  apply loadtxt_column_ok in Ec. destruct Ec as [Ec _].
  cbn [bind] in Hret.
  pose proof (theta_grid_size delta Hd) as Hnt.
  destruct (phi_grid_size delta Hd) as [_ Hnp]. specialize (Hnp H360).
  set (nphi := Z.to_nat (ceilZ ((360 - 0) / delta))) in *.
  set (ntheta := Z.to_nat (ceilZ ((180 + delta - 0) / delta))) in *.
  destruct (np_reshape_rows nphi c) as [M |] eqn:EM; [| discriminate].
  cbn [bind lift] in Hret. injection Hret as <- <- <-.
  rewrite !length_degree_grid in Htable.
  destruct (np_reshape_rows_shape nphi c M EM) as (HM & Hrows & _).
  rewrite (column_length 2 table c Ec), Htable in Hrows.
  rewrite (Nat.mul_comm nphi ntheta), Nat.div_mul in Hrows
    by (unfold nphi; lia).
  assert (Ht : (2 <= ntheta)%nat) by (unfold ntheta; lia).
  assert (Hp : (2 <= nphi)%nat) by (unfold nphi; lia).
  assert (Hrad : radiated_power M
                   (np_radians (map (fun i => 0 + INR i * delta)
                                    (seq 0 ntheta)))
                   (np_radians (map (fun i => 0 + INR i * delta)
                                    (seq 0 nphi)))
                 = Ok (rectangle_rule M
                         (np_radians (map (fun i => 0 + INR i * delta)
                                          (seq 0 ntheta)))
                         (delta * (PI / 180)) (delta * (PI / 180)))).
  { rewrite radiated_power_rule
      by (rewrite ?length_degree_grid; assumption).
    rewrite !nth_degree_grid by lia. do 2 f_equal; simpl; ring. }
  split; [exact Hrad |].
  destruct (np_max_spec M) as (pmax & Hmax & _).
  { apply (concat_rows_nonempty _ ntheta); [| lia | exact Hrows].
    intros ->. simpl in HM. lia. }
  unfold numerical_directivity. rewrite Hmax. cbn [bind]. rewrite Hrad.
  eexists. reflexivity.
Qed.

Lemma import_pattern_radiated_power_witness :
  let theta := np_radians (map (fun i => 0 + INR i * 180) (seq 0 2)) in
  let phi := np_radians (map (fun i => 0 + INR i * 180) (seq 0 2)) in
  radiated_power [[1; 2]; [3; 4]] theta phi
  = Ok (rectangle_rule [[1; 2]; [3; 4]] theta
          (180 * (PI / 180)) (180 * (PI / 180)))
  /\ exists D, numerical_directivity [[1; 2]; [3; 4]] theta phi = Ok D.
Proof.
  apply (import_pattern_radiated_power
           [[0; 0; 1]; [0; 0; 2]; [0; 0; 3]; [0; 0; 4]] 180
           [[1; 2]; [3; 4]]).
  - lra.
  - apply import_pattern_sample.
  - reflexivity.
Defined.

Lemma getitem_outcome (v : list R) (k : nat) :
  ((length v <= k)%nat -> getitem v k = Raise IndexError)
  /\ ((k < length v)%nat -> exists x, getitem v k = Ok x).
Proof.
  unfold getitem. split; intros H.
  - apply nth_error_None in H. now rewrite H.
  - apply nth_error_Some in H.
    destruct (nth_error v k) as [x |]; [now exists x | contradiction].
Qed.

(** X24: tables that [import_pattern] cannot index, for [delta > 0].  When
    the file has fewer than two data lines, so that [np.loadtxt] returns a
    one-dimensional array, or when its lines have fewer than three
    columns, [table[:,2]] raises IndexError. *)
Theorem import_pattern_table (table : list (list R)) (delta : R)
  (ncols : nat) :
  0 < delta ->
  Forall (fun row => length row = ncols) table ->
  (length table <= 1)%nat \/ (ncols < 3)%nat ->
  import_pattern table delta = Fails (NumPyError IndexError).
Proof.
  intros Hd Hrows Hbad. rewrite import_pattern_unfold by lra.
  unfold loadtxt_column.
  destruct (Nat.leb_spec (length table) 1) as [| Hlen]; [reflexivity |].
  destruct Hbad as [Hbad | Hbad]; [lia |].
  unfold column.
  rewrite (mapM_raises _ IndexError); [reflexivity | |].
  - intros row. destruct (le_lt_dec (length row) 2) as [H | H].
    + left. now apply (proj1 (getitem_outcome row 2)).
    + right. now apply (proj2 (getitem_outcome row 2)).
  - destruct table as [| row table]; [simpl in Hlen; lia |].
    inversion Hrows as [| ? ? Hrow _]; subst.
    apply Exists_cons_hd. apply (proj1 (getitem_outcome row 2)). lia.
Qed.

Lemma import_pattern_table_witness :
  import_pattern [[0; 0]; [0; 0]] 180 = Fails (NumPyError IndexError).
Proof.
  apply (import_pattern_table [[0; 0]; [0; 0]] 180 2).
  - lra.
  - repeat constructor.
  - right. lia.
Defined.

(** ** Superposition and the two-element array *)

Lemma coherent_sum_app (p1 p2 : list (R * R)) (dl dm : R) :
  coherent_sum (p1 ++ p2) dl dm
  = Cadd (coherent_sum p1 dl dm) (coherent_sum p2 dl dm).
Proof.
  unfold coherent_sum. now rewrite map_app, Csum_app.
Qed.

(** X25: subarrays superpose.  The array factor of two position sets put
    together is the entry-wise sum of their array factors:
    [array_factor_lm] on [p1 ++ p2] returns the sums of the entries it
    returns on [p1] and on [p2]. *)
Theorem array_factor_lm_superposition (l m : list R) (l0 m0 : R)
  (p1 p2 : list (R * R)) :
  length l = length m ->
  exists a1 a2,
    array_factor_lm l m l0 m0 p1 = Ok a1
    /\ array_factor_lm l m l0 m0 p2 = Ok a2
    /\ array_factor_lm l m l0 m0 (p1 ++ p2) = Ok (map2 Cadd a1 a2).
Proof.
  intros H. rewrite !array_factor_lm_closed by assumption.
  do 2 eexists. repeat (split; [reflexivity |]). f_equal.
  rewrite !map2_combine.
  rewrite (combine_map_map
             (fun ab => coherent_sum p1 (fst ab - l0) (snd ab - m0))
             (fun ab => coherent_sum p2 (fst ab - l0) (snd ab - m0))).
  rewrite map_map. apply map_ext. intros s. cbn [fst snd].
  apply coherent_sum_app.
Qed.

Lemma array_factor_lm_superposition_witness :
  exists a1 a2,
    array_factor_lm [0; 1] [1; 0] 0 0 [(1, 2)] = Ok a1
    /\ array_factor_lm [0; 1] [1; 0] 0 0 [(3, 4); (5, 6)] = Ok a2
    /\ array_factor_lm [0; 1] [1; 0] 0 0 ([(1, 2)] ++ [(3, 4); (5, 6)])
       = Ok (map2 Cadd a1 a2).
Proof.
  apply (array_factor_lm_superposition [0; 1] [1; 0] 0 0
           [(1, 2)] [(3, 4); (5, 6)]).
  reflexivity.
Defined.

Lemma np_sinc_bounds (x : R) : -1 < np_sinc x <= 1.
Proof.
  destruct (Req_dec_T x 0) as [-> | Hx]; [rewrite np_sinc_0; lra |].
  rewrite np_sinc_nonzero by assumption.
  pose proof PI_RGT_0 as Hpi.
  assert (Hpos : forall y, 0 < y -> - y < sin y < y).
  { intros y Hy. split; [| now apply sin_lt_x].
    destruct (Rlt_dec y PI) as [Hlt | Hge].
    - pose proof (sin_gt_0 y Hy Hlt). lra.
    - pose proof (SIN_bound y) as [Hs _].
      pose proof PI_4 as H4. pose proof PI2_3_2 as H32. lra. }
  destruct (Rdichotomy x 0 Hx) as [Hneg | Hp].
  - destruct (Hpos (- (PI * x))) as [H1 H2]; [nra |].
    rewrite sin_neg in H1, H2.
    assert (Hd : PI * x < 0) by nra.
    split.
    + apply Rmult_lt_reg_r with (- (PI * x)); [lra |].
      replace (sin (PI * x) / (PI * x) * - (PI * x)) with (- sin (PI * x))
        by (field; lra). lra.
    + apply Rmult_le_reg_r with (- (PI * x)); [lra |].
      replace (sin (PI * x) / (PI * x) * - (PI * x)) with (- sin (PI * x))
        by (field; lra). lra.
  - destruct (Hpos (PI * x)) as [H1 H2]; [nra |].
    assert (Hd : 0 < PI * x) by nra.
    split.
    + apply Rmult_lt_reg_r with (PI * x); [lra |].
      replace (sin (PI * x) / (PI * x) * (PI * x)) with (sin (PI * x))
        by (field; lra). lra.
    + apply Rmult_le_reg_r with (PI * x); [lra |].
      replace (sin (PI * x) / (PI * x) * (PI * x)) with (sin (PI * x))
        by (field; lra). lra.
Qed.

(** X26: the two-element array.  For two unit weights and every spacing d,
    [linear_directivity] returns the finite value 2 / (1 + sinc(2d)),
    which is at least 1: the division never has a zero divisor. *)
Theorem linear_directivity_two_elements (d : R) :
  linear_directivity [RtoC 1; RtoC 1] d
  = Ok (Finite (RtoC (2 / (1 + np_sinc (2 * d)))))
  /\ 1 <= 2 / (1 + np_sinc (2 * d)).
Proof.
  destruct (np_sinc_bounds (2 * d)) as [Hlo Hhi].
  split.
  - rewrite linear_directivity_closed.
    replace (coupling_sum [RtoC 1; RtoC 1] d)
      with (RtoC (2 + 2 * np_sinc (2 * d))).
    + cbn [map Rsum fold_right]. rewrite !Cmod_real, Rabs_R1.
      rewrite np_cdivide_real by lra. do 3 f_equal. field. lra.
    + unfold coupling_sum. cbn [length seq map nth Csum fold_right INR].
      replace (2 * d * (0 - 0)) with 0 by ring.
      replace (2 * d * (1 - 1)) with 0 by ring.
      replace (2 * d * (0 - 1)) with (- (2 * d)) by ring.
      replace (2 * d * (1 - 0)) with (2 * d) by ring.
      rewrite np_sinc_even, np_sinc_0.
      unfold Cadd, Cmul, RtoC, C0. cbn [fst snd]. f_equal; ring.
  - apply Rmult_le_reg_r with (1 + np_sinc (2 * d)); [lra |].
    replace (2 / (1 + np_sinc (2 * d)) * (1 + np_sinc (2 * d))) with 2
      by (field; lra).
    lra.
Qed.
